(** * Stetson: change tracking and flush scheduling

    A shallow embedding of the two revisions of [stetson(value).actions(builder)]
    found in the repository:
    - [src/sample.ts], lines 47-91 (module [Sample] below);
    - [src/unnamed/part_001], lines 17-65 (module [Part001] below).

    Both revisions share [flush], [invalidate] and the microtask discipline;
    they differ in the value accessor, the proxy handlers and the wrapper
    put around every action.  The shared part is written once, over a record
    of the operations in which the revisions differ. *)

From Stdlib Require Import ZArith Lia.
From stdpp Require Import base option list strings gmap.

Open Scope string_scope.
Open Scope list_scope.
Open Scope nat_scope.

(** ** JavaScript values *)

(** Heap addresses and promise identifiers are indices in allocation order. *)
Abbreviation loc := nat.
Abbreviation pid := nat.

(** The values that flow through the container.  [VObj l] is a reference to
    the plain object stored at heap address [l]; [VProxy t] is the object
    built by [new Proxy(t, handlers)] inside this container; [VPromise p] is
    a native promise; [VErr n] is an error object of class [n].

    Property lookup is modelled for own data properties only: prototype
    chains and function-valued properties are outside the value universe,
    except for [Promise.prototype.finally], which the wrapper of
    [src/sample.ts] looks up on the value an action returns. *)
Inductive val :=
| VUndef
| VNull
| VBool (b : bool)
| VNum (n : Z)
| VStr (x : string)
| VObj (l : loc)
| VProxy (target : val)
| VPromise (p : pid)
| VErr (name : string).

(** An object is a finite map from property names to values. *)
Abbreviation obj := (gmap string val).

(** ToBoolean. *)
Definition truthy (v : val) : bool :=
  match v with
  | VUndef | VNull => false
  | VBool b => b
  | VNum n => negb (n =? 0)%Z
  | VStr x => negb (String.eqb x "")
  | VObj _ | VProxy _ | VPromise _ | VErr _ => true
  end.

(** [v instanceof Object]. *)
Definition instanceof_Object (v : val) : bool :=
  match v with
  | VObj _ | VProxy _ | VPromise _ | VErr _ => true
  | _ => false
  end.

Definition TypeError := VErr "TypeError".
Definition ReferenceError := VErr "ReferenceError".
Definition RangeError := VErr "RangeError".

(** Completion of a call: a normal return or a throw. *)
Inductive result (R : Type) :=
| Returned (r : R)
| Threw (e : val).
Arguments Returned {R} r.
Arguments Threw {R} e.

(** ** Code supplied by the user

    Action bodies, the builder and detached callbacks are arbitrary code
    that can reach the container only through the accessor object it was
    handed and through the references it obtained from it.  Such code is a
    tree of the operations it performs on them, with the rest of the
    computation as a continuation. *)
Inductive prog (R : Type) : Type :=
| Ret (r : R)                                              (* return r *)
| Throw (e : val)                                          (* throw e *)
| ReadValue (k : val -> prog R)                            (* x = store.value *)
| WriteValue (v : val) (k : prog R)                        (* store.value = v *)
| GetProp (o : val) (p : string) (k : val -> prog R)       (* x = o[p] *)
| SetProp (o : val) (p : string) (v : val) (k : prog R)    (* o[p] = v *)
| NewObj (props : obj) (k : val -> prog R).                (* x = { ... } *)
Arguments Ret {R} r.
Arguments Throw {R} e.
Arguments ReadValue {R} k.
Arguments WriteValue {R} v k.
Arguments GetProp {R} o p k.
Arguments SetProp {R} o p v k.
Arguments NewObj {R} props k.

Scheme All for prog.

(** The body of an [async] function runs until it returns, throws or
    reaches an [await]; what follows the [await] is resumed from the
    microtask queue.  The awaited value is taken to be settled already, as
    in [await Promise.resolve()]: the continuation is queued at once. *)
Inductive astep :=
| ADone (v : val)
| AAwait (k : prog astep).

(** An action takes the call's arguments; it is a plain or an [async]
    function. *)
Inductive action :=
| SyncFn (body : list val -> prog val)
| AsyncFn (body : list val -> prog astep).

(** ** Promises and microtasks *)

Inductive settlement :=
| Fulfilled (v : val)
| Rejected (e : val).

(** A pending promise carries the promises derived from it by
    [.finally(flush)], in registration order. *)
Inductive promise :=
| Pending (derived : list pid)
| Settled (o : settlement).

Inductive task :=
| Checkpoint                          (* invalidate, resumed after [await s]: flush() *)
| Resume (p : pid) (k : prog astep)   (* an async action, resumed after an await *)
| Finally (p' : pid) (o : settlement). (* the reaction of [res.finally(flush)] *)

(** ** The underlying store *)

(** What a subscriber is called with: the value and, when it is a reference
    to a plain object, the properties the object has at the time of the
    call. *)
Definition notification : Type := val * option obj.

Definition observe (h : list obj) (v : val) : notification :=
  (v, match v with VObj l => h !! l | _ => None end).

(** Modelled from the spec: the Underlying Store ([writable] of
    [svelte/store]) is not code of this repository.  Section 6 gives its
    contract: [set(newValue)] replaces the stored value and synchronously
    invokes every registered callback with [newValue], and returns nothing.
    [delivered] is the sequence of calls a subscriber registered from the
    start receives through [set]. *)
Record writable := Writable {
  stored : val;
  delivered : list notification
}.

Definition store_set (h : list obj) (v : val) (w : writable) : writable :=
  {| stored := v; delivered := delivered w ++ [observe h v] |}.

(** ** The container's state

    The closure variables of [actions]: [value], [valueProxy], [dirty] and
    [s], together with the heap of plain objects, the promises and the
    microtask queue of the host.  [dirty] holds [undefined] or [s]; only its
    truth value is used.  [reports] counts the calls of [invalidate]; the
    source has no such counter, it is there to state how many mutation
    signals a piece of code raised. *)
Record state := State {
  heap : list obj;
  value : val;
  valueProxy : val;
  dirty : bool;
  s : writable;
  microtasks : list task;
  promises : list promise;
  reports : nat
}.

Definition with_heap (h : list obj) (st : state) : state :=
  State h (value st) (valueProxy st) (dirty st) (s st) (microtasks st)
        (promises st) (reports st).
Definition with_value (v : val) (st : state) : state :=
  State (heap st) v (valueProxy st) (dirty st) (s st) (microtasks st)
        (promises st) (reports st).
Definition with_valueProxy (v : val) (st : state) : state :=
  State (heap st) (value st) v (dirty st) (s st) (microtasks st)
        (promises st) (reports st).
Definition with_dirty (d : bool) (st : state) : state :=
  State (heap st) (value st) (valueProxy st) d (s st) (microtasks st)
        (promises st) (reports st).
Definition with_s (w : writable) (st : state) : state :=
  State (heap st) (value st) (valueProxy st) (dirty st) w (microtasks st)
        (promises st) (reports st).
Definition with_microtasks (q : list task) (st : state) : state :=
  State (heap st) (value st) (valueProxy st) (dirty st) (s st) q
        (promises st) (reports st).
Definition with_promises (ps : list promise) (st : state) : state :=
  State (heap st) (value st) (valueProxy st) (dirty st) (s st) (microtasks st)
        ps (reports st).
Definition with_reports (n : nat) (st : state) : state :=
  State (heap st) (value st) (valueProxy st) (dirty st) (s st) (microtasks st)
        (promises st) n.

Definition enqueue (t : task) (st : state) : state :=
  with_microtasks (microtasks st ++ [t]) st.

(** ** Flush scheduler *)

(** [const flush = () => dirty && (dirty = s.set(value));]
    [s.set] is called with the variable [value] as it is now, and its result
    [undefined] makes the token clean. *)
Definition flush (st : state) : state :=
  if dirty st
  then with_dirty false (with_s (store_set (heap st) (value st) (s st)) st)
  else st.

(** [const invalidate = async () => !dirty && ((dirty = s), await s, flush());]
    Up to [await s] the body runs in the caller; the rest, [flush()], is
    queued as a microtask. *)
Definition invalidate (st : state) : state :=
  let st := with_reports (S (reports st)) st in
  if dirty st
  then st
  else enqueue Checkpoint (with_dirty true st).

(** ** Property access on values that are not proxies

    The callers are modules, hence strict code: a write to a property of a
    primitive throws. *)
Definition field (h : list obj) (l : loc) (p : string) : val :=
  default VUndef (h !! l ≫= (.!! p)).

Definition raw_get (h : list obj) (v : val) (p : string) : result val :=
  match v with
  | VUndef | VNull => Threw TypeError
  | VObj l => Returned (field h l p)
  | _ => Returned VUndef
  end.

Definition write_field (l : loc) (p : string) (v : val) (h : list obj)
  : list obj :=
  match h !! l with
  | Some o => <[l := <[p := v]> o]> h
  | None => h
  end.

Definition raw_set (st : state) (o : val) (p : string) (v : val)
  : result val * state :=
  match o with
  | VObj l => (Returned v, with_heap (write_field l p v (heap st)) st)
  | VPromise _ | VErr _ => (Returned v, st)
  | _ => (Threw TypeError, st)
  end.

(** ** The operations in which the two revisions differ *)

Record accessor := Accessor {
  (* [get value() { ... }] *)
  get_value : state -> val;
  (* [set value(nextValue) { ... }] *)
  set_value : val -> state -> state;
  (* the [get] handler of the proxy, [(_, p) => ...] *)
  proxy_get : val -> string -> state -> result val * state;
  (* the [set] handler of the proxy, [(_, p, v) => ...] *)
  proxy_set : val -> string -> val -> state -> result val * state
}.

(** ** Running user code against the container *)

Section Host.
Variable api : accessor.

(** [o[p]]: a proxy answers through its [get] handler. *)
Definition js_get (o : val) (p : string) (st : state) : result val * state :=
  match o with
  | VProxy t => proxy_get api t p st
  | _ => (raw_get (heap st) o p, st)
  end.

(** [o[p] = v]: a proxy answers through its [set] handler; in strict code
    a handler that returns a falsy value makes the assignment throw. *)
Definition js_set (o : val) (p : string) (v : val) (st : state)
  : result val * state :=
  match o with
  | VProxy t =>
      match proxy_set api t p v st with
      | (Returned r, st') =>
          if truthy r then (Returned v, st') else (Threw TypeError, st')
      | (Threw e, st') => (Threw e, st')
      end
  | _ => raw_set st o p v
  end.

Fixpoint run {R : Type} (c : prog R) (st : state) : result R * state :=
  match c with
  | Ret r => (Returned r, st)
  | Throw e => (Threw e, st)
  | ReadValue k => run (k (get_value api st)) st
  | WriteValue v k => run k (set_value api v st)
  | GetProp o p k =>
      match js_get o p st with
      | (Returned x, st') => run (k x) st'
      | (Threw e, st') => (Threw e, st')
      end
  | SetProp o p v k =>
      match js_set o p v st with
      | (Returned _, st') => run k st'
      | (Threw e, st') => (Threw e, st')
      end
  | NewObj props k =>
      run (k (VObj (length (heap st)))) (with_heap (heap st ++ [props]) st)
  end.

(** *** Promises *)

Definition new_promise (st : state) : pid * state :=
  (length (promises st), with_promises (promises st ++ [Pending []]) st).

(** A pending promise settles once; each promise derived from it gets its
    reaction queued. *)
Definition settle (p : pid) (o : settlement) (st : state) : state :=
  match promises st !! p with
  | Some (Pending ds) =>
      with_microtasks (microtasks st ++ map (fun p' => Finally p' o) ds)
        (with_promises (<[p := Settled o]> (promises st)) st)
  | _ => st
  end.

(** [r.finally(flush)] on the promise [p]: a new promise that runs [flush]
    once [p] is settled and then settles like [p].  [flush] returns
    [undefined] and does not throw, so the outcome of [p] is passed on; the
    extra turns of the queue the host takes to pass it on are not counted. *)
Definition promise_finally (p : pid) (st : state) : pid * state :=
  let '(p', st') := new_promise st in
  match promises st !! p with
  | Some (Pending ds) =>
      (p', with_promises (<[p := Pending (ds ++ [p'])]> (promises st')) st')
  | Some (Settled o) => (p', enqueue (Finally p' o) st')
  | None => (p', st')
  end.

(** Where the body of an async function stops. *)
Definition finish (p : pid) (r : result astep * state) : state :=
  match r with
  | (Returned (ADone v), st) => settle p (Fulfilled v) st
  | (Returned (AAwait k), st) => enqueue (Resume p k) st
  | (Threw e, st) => settle p (Rejected e) st
  end.

(** [boundActions[k](...args)] *)
Definition call (f : action) (args : list val) (st : state)
  : result val * state :=
  match f with
  | SyncFn body => run (body args) st
  | AsyncFn body =>
      let '(p, st') := new_promise st in
      (Returned (VPromise p), finish p (run (body args) st'))
  end.

(** *** The microtask queue *)

Definition run_task (t : task) (st : state) : state :=
  match t with
  | Checkpoint => flush st
  | Resume p k => finish p (run k st)
  | Finally p' o => settle p' o (flush st)
  end.

Definition tick (st : state) : option state :=
  match microtasks st with
  | [] => None
  | t :: q => Some (run_task t (with_microtasks q st))
  end.

Fixpoint drain (fuel : nat) (st : state) : state :=
  match fuel with
  | 0 => st
  | S n => match tick st with
           | Some st' => drain n st'
           | None => st
           end
  end.

(** *** The public object *)

Inductive member :=
| StoreSubscribe              (* [s.subscribe] *)
| Wrapped (f : action).       (* [(...args) => { ... boundActions[k](...args) ... }] *)

(** [const res = { subscribe: s.subscribe };
     for (const k in boundActions) { res[k] = (...args) => ... }] *)
Definition build (boundActions : gmap string action) : gmap string member :=
  map_fold (fun k f res => <[k := Wrapped f]> res)
           {["subscribe" := StoreSubscribe]} boundActions.

(** [actions: (builder) => { ...; const boundActions = builder({...}); ...; return res }]
    from the state the declarations before the call of [builder] set up. *)
Definition actions (st0 : state) (builder : prog (gmap string action))
  : result (gmap string member) * state :=
  match run builder st0 with
  | (Returned boundActions, st) => (Returned (build boundActions), st)
  | (Threw e, st) => (Threw e, st)
  end.
End Host.

(** * [src/sample.ts] *)

Module Sample.

(** [get: (_, p) => { invalidate(); return value[p]; }]
    [value] is the closure variable.  When it holds the proxy itself the
    handler re-enters without end and the host throws [RangeError]. *)
Definition proxy_get (_ : val) (p : string) (st : state)
  : result val * state :=
  let st := invalidate st in
  match value st with
  | VProxy _ => (Threw RangeError, st)
  | v => (raw_get (heap st) v p, st)
  end.

(** [set: (_, p, v) => { invalidate(); return (value[p] = v); }] *)
Definition proxy_set (_ : val) (p : string) (v : val) (st : state)
  : result val * state :=
  let st := invalidate st in
  match value st with
  | VProxy _ => (Threw RangeError, st)
  | o => raw_set st o p v
  end.

(** [get value() { return valueProxy; }] *)
Definition get_value (st : state) : val := valueProxy st.

(** [set value(nextValue) {
       invalidate();
       value = nextValue;
       !(value instanceof Object) && (valueProxy = value);
     }] *)
Definition set_value (nextValue : val) (st : state) : state :=
  let st := invalidate st in
  let st := with_value nextValue st in
  if instanceof_Object (value st) then st else with_valueProxy (value st) st.

Definition api : accessor :=
  Accessor get_value set_value proxy_get proxy_set.

(** [const s = writable(value); let dirty;
     let valueProxy = value instanceof Object ? new Proxy(value, {...}) : value;] *)
Definition init (h : list obj) (v : val) : state :=
  {| heap := h; value := v;
     valueProxy := if instanceof_Object v then VProxy v else v;
     dirty := false; s := Writable v []; microtasks := [];
     promises := []; reports := 0 |}.

(** [res && res.finally ? res.finally(flush) : res] *)
Definition chain (res : val) (st : state) : result val * state :=
  if truthy res then
    match res with
    | VPromise p =>
        let '(p', st') := promise_finally p st in (Returned (VPromise p'), st')
    | _ =>
        match js_get api res "finally" st with
        | (Returned f, st1) =>
            if truthy f then
              (* [res.finally] is read again and called: not a function *)
              match js_get api res "finally" st1 with
              | (Returned _, st2) => (Threw TypeError, st2)
              | (Threw e, st2) => (Threw e, st2)
              end
            else (Returned res, st1)
        | (Threw e, st1) => (Threw e, st1)
        end
    end
  else (Returned res, st).

(** [res[k] = (...args) => {
       const res = boundActions[k](...args);
       flush();
       return res && res.finally ? res.finally(flush) : res;
     };] *)
Definition bound (f : action) (args : list val) (st : state)
  : result val * state :=
  match call api f args st with
  | (Returned res, st1) => chain res (flush st1)
  | (Threw e, st1) => (Threw e, st1)
  end.

(** [stetson(value).actions(builder)] *)
Definition stetson (h : list obj) (v : val)
    (builder : prog (gmap string action)) :=
  actions api (init h v) builder.

End Sample.

(** * [src/unnamed/part_001] *)

Module Part001.

(** [get: (_, p) => { invalidate(); return target[p]; }]
    No variable [target] is in scope: evaluating it throws. *)
Definition proxy_get (_ : val) (p : string) (st : state)
  : result val * state :=
  let st := invalidate st in
  (Threw ReferenceError, st).

(** [set: (_, p, v) => { invalidate(); return (target[p] = v); }] *)
Definition proxy_set (_ : val) (p : string) (v : val) (st : state)
  : result val * state :=
  let st := invalidate st in
  (Threw ReferenceError, st).

(** [const makeStateProxy = () => {
       valueProxy = value instanceof Object ? new Proxy(value, {...}) : value;
     };] *)
Definition makeStateProxy (st : state) : state :=
  with_valueProxy
    (if instanceof_Object (value st) then VProxy (value st) else value st) st.

(** [get value() { return value; }] *)
Definition get_value (st : state) : val := value st.

(** [set value(nextValue) { invalidate(); value = nextValue; makeStateProxy(); }] *)
Definition set_value (nextValue : val) (st : state) : state :=
  let st := invalidate st in
  let st := with_value nextValue st in
  makeStateProxy st.

Definition api : accessor :=
  Accessor get_value set_value proxy_get proxy_set.

(** [const s = writable(value); let dirty; let valueProxy; ...; makeStateProxy();] *)
Definition init (h : list obj) (v : val) : state :=
  makeStateProxy
    {| heap := h; value := v; valueProxy := VUndef;
       dirty := false; s := Writable v []; microtasks := [];
       promises := []; reports := 0 |}.

(** [res[k] = (...args) => {
       const res = boundActions[k](...args);
       flush();
       return res;
     };] *)
Definition bound (f : action) (args : list val) (st : state)
  : result val * state :=
  match call api f args st with
  | (Returned res, st1) => (Returned res, flush st1)
  | (Threw e, st1) => (Threw e, st1)
  end.

(** [stetson(value).actions(builder)] *)
Definition stetson (h : list obj) (v : val)
    (builder : prog (gmap string action)) :=
  actions api (init h v) builder.

End Part001.

(** * Notions used to state the properties *)

(** The number of checkpoints waiting in the microtask queue. *)
Definition is_checkpoint (t : task) : bool :=
  match t with Checkpoint => true | _ => false end.

Definition scheduled (st : state) : nat :=
  length (filter (fun t => is_checkpoint t = true) (microtasks st)).

(** ** What user code can do to the scheduler

    [signals_only st st']: going from [st] to [st'] the store and the
    promises were left alone, and the token and the queue changed the way
    calls of [invalidate] change them. *)
Record signals_only (st st' : state) : Prop := SignalsOnly {
  sig_s : s st' = s st;
  sig_promises : promises st' = promises st;
  sig_reports : reports st <= reports st';
  sig_dirty : dirty st' = dirty st || (reports st <? reports st');
  sig_tasks :
    microtasks st' =
    microtasks st ++
      (if dirty st then [] else if dirty st' then [Checkpoint] else [])
}.

(** A revision whose accessor and handlers touch the scheduler through
    [invalidate] only. *)
Class Tracker (api : accessor) : Prop := {
  set_value_signals v st : signals_only st (set_value api v st);
  proxy_get_signals t p st : signals_only st (snd (proxy_get api t p st));
  proxy_set_signals t p v st : signals_only st (snd (proxy_set api t p v st))
}.

(** ** The two revisions side by side *)

Inductive revision := sample_ts | part_001.

Definition api_of (rev : revision) : accessor :=
  match rev with sample_ts => Sample.api | part_001 => Part001.api end.

Definition init_of (rev : revision) : list obj -> val -> state :=
  match rev with sample_ts => Sample.init | part_001 => Part001.init end.

Definition bound_of (rev : revision)
  : action -> list val -> state -> result val * state :=
  match rev with sample_ts => Sample.bound | part_001 => Part001.bound end.

(** ** The life of a container after its construction *)

Inductive event :=
| Invoke (f : action) (args : list val)  (* the caller invokes a bound action *)
| Detached (c : prog val)                (* a callback that kept the accessor runs *)
| Microtask.                             (* the host runs the next microtask *)

Definition step (rev : revision) (st : state) (e : event) : state :=
  match e with
  | Invoke f args => snd (bound_of rev f args st)
  | Detached c => snd (run (api_of rev) c st)
  | Microtask => default st (tick (api_of rev) st)
  end.

Definition after (rev : revision) (es : list event) (st : state) : state :=
  fold_left (step rev) es st.

(** A pending token has its checkpoint in the queue. *)
Definition well_scheduled (st : state) : Prop :=
  dirty st = true -> In Checkpoint (microtasks st).

(** ** Pieces of user code used in the scenarios *)

(** [v + 1], on numbers. *)
Definition plus_one (v : val) : val :=
  match v with VNum n => VNum (n + 1) | _ => VUndef end.

(** [store.value = store.value + 1; k] *)
Definition increment {R : Type} (k : prog R) : prog R :=
  ReadValue (fun v => WriteValue (plus_one v) k).

(** [next: () => { value = value + 1, three times }] *)
Definition next3 : action :=
  SyncFn (fun _ => increment (increment (increment (Ret VUndef)))).

(** [next: () => { store.value = store.value + 1 }] *)
Definition next1 : action := SyncFn (fun _ => increment (Ret VUndef)).

(** [fail: () => { store.value = store.value + 1; throw "boom" }] *)
Definition fail1 : action := SyncFn (fun _ => increment (Throw (VStr "boom"))).

(** ** The claims that the code does not meet, as the specification words them *)

(** "At most one flush is scheduled at a time per container." *)
Definition at_most_one_scheduled (rev : revision) : Prop :=
  forall h v es, scheduled (after rev es (init_of rev h v)) <= 1.

(** "The forced flush still fires even when the call threw": the caller
    gets the error, and the store has been given what the flush pushes. *)
Definition flush_forced_on_throw (rev : revision) : Prop :=
  forall f args st e st1,
    call (api_of rev) f args st = (Threw e, st1) ->
    fst (bound_of rev f args st) = Threw e /\
    s (snd (bound_of rev f args st)) = s (flush st1).

(** "The public surface consists of [subscribe], delegated verbatim to the
    Underlying Store, plus exactly the names the builder returned." *)
Definition surface_as_specified : Prop :=
  forall b : gmap string action,
    dom (build b) = {["subscribe"]} ∪ dom b /\
    build b !! "subscribe" = Some StoreSubscribe.

(** ** Scenarios taken from the tests of the repository *)

Definition count_is (n : Z) : obj := {["count" := VNum n]}.

(** [o.count++] *)
Definition count_plusplus (o : val) : prog val :=
  GetProp o "count" (fun c => SetProp o "count" (plus_one c) (Ret c)).

(** [add: () => store.value.count++] *)
Definition add : action := SyncFn (fun _ => ReadValue count_plusplus).

(** [init: () => (store.value = { count: 0 })] *)
Definition lazy_init : action :=
  SyncFn (fun _ => NewObj (count_is 0) (fun o => WriteValue o (Ret o))).

(** [replace: () => (store.value = { count: store.value.count + 1 })] *)
Definition replace : action :=
  SyncFn (fun _ =>
    ReadValue (fun view =>
    GetProp view "count" (fun c =>
    NewObj {["count" := plus_one c]} (fun o =>
    WriteValue o (Ret o))))).

(** [({ value }) => ({ next: () => value.count++ })]: the builder reads the
    accessor once and the action keeps what it got. *)
Definition destructuring_builder : prog (gmap string action) :=
  ReadValue (fun view => Ret {["next" := SyncFn (fun _ => count_plusplus view)]}).

(** What the subscriber has been called with once the calls of [es] are
    over and the microtask queue has been emptied. *)
Definition notifications (rev : revision) (h : list obj) (v : val)
    (es : list event) : list notification :=
  delivered (s (drain (api_of rev) 16 (after rev es (init_of rev h v)))).

(** The test "mutation triggers update": the builder destructures the
    accessor, [next] is called once and the queue is emptied. *)
Definition mutation_test (rev : revision) : option (list notification) :=
  match actions (api_of rev) (init_of rev [count_is 0] (VObj 0))
          destructuring_builder with
  | (Returned c, st) =>
      match c !! "next" with
      | Some (Wrapped f) =>
          Some (delivered (s (drain (api_of rev) 16 (snd (bound_of rev f [] st)))))
      | _ => None
      end
  | (Threw _, _) => None
  end.

(** [async next() { store.value++; await Promise.resolve(); store.value++; }] *)
Definition async_next2 : action :=
  AsyncFn (fun _ => increment (Ret (AAwait (increment (Ret (ADone VUndef)))))).

(** [async next() { store.value++; await ...; store.value++; await ...; store.value++; }] *)
Definition async_next3 : action :=
  AsyncFn (fun _ =>
    increment (Ret (AAwait (
    increment (Ret (AAwait (
    increment (Ret (ADone VUndef))))))))).

(** [odd: () => ({ finally: 1 })] *)
Definition returns_finally_1 : action :=
  SyncFn (fun _ => NewObj {["finally" := VNum 1]} (fun o => Ret o)).

(** ** Promises derived by the wrapper *)

Definition is_finally (t : task) : bool :=
  match t with Finally _ _ => true | _ => false end.

(** [p'] is set to settle like [p]: it is registered with the pending [p],
    or [p] is settled and the reaction of [p'] is queued with the outcome of
    [p]. *)
Definition chained (st : state) (p p' : pid) : Prop :=
  match promises st !! p with
  | Some (Pending ds) => In p' ds
  | Some (Settled o) => In (Finally p' o) (microtasks st)
  | None => False
  end.

(** [r.finally] for a value [r] that is neither a promise nor a proxy. *)
Definition own_finally (h : list obj) (r : val) : val :=
  match raw_get h r "finally" with
  | Returned x => x
  | Threw _ => VUndef
  end.

(** "The value returned by the bound action reaches the caller unchanged." *)
Definition return_value_unchanged (rev : revision) : Prop :=
  forall f args st r st1,
    call (api_of rev) f args st = (Returned r, st1) ->
    fst (bound_of rev f args st) = Returned r.

(** [next() { store.value++; return "hello"; }] *)
Definition returns_hello : action :=
  SyncFn (fun _ => increment (Ret (VStr "hello"))).

(** [bump: () => { store.value.count++; return store.value; }] *)
Definition returns_view : action :=
  SyncFn (fun _ =>
    ReadValue (fun view =>
    GetProp view "count" (fun c =>
    SetProp view "count" (plus_one c) (
    ReadValue (fun view' => Ret view'))))).

(** [getHandle: () => () => store.value++], and the handle it returns, run
    by the caller later. *)
Definition handle : prog val :=
  ReadValue (fun v => WriteValue (plus_one v) (Ret v)).

(** [st'] is [st] with tasks added at the end of the queue, the token and
    the store untouched. *)
Definition queue_grows (st st' : state) : Prop :=
  dirty st' = dirty st /\ s st' = s st /\
  exists q, microtasks st' = microtasks st ++ q.

(** * Further notions: invariants of a running container *)

(** When no update is pending the store holds the current value. *)
Definition in_sync (st : state) : Prop :=
  dirty st = false -> stored (s st) = value st.

(** Every notification delivered, and the one a pending token stands for,
    is paid for by a report of its own. *)
Definition accounted (st : state) : Prop :=
  length (delivered (s st)) + (if dirty st then 1 else 0) <= reports st.

(** The view of [src/unnamed/part_001] is the one [makeStateProxy] builds
    for the current value. *)
Definition view_rebuilt (st : state) : Prop :=
  valueProxy st =
  if instanceof_Object (value st) then VProxy (value st) else value st.

(** The view of [src/sample.ts] of a container constructed on [v0]: the
    proxy built at construction or a primitive, and the value itself
    whenever the value is a primitive. *)
Definition view_of_construction (v0 : val) (st : state) : Prop :=
  (valueProxy st = VProxy v0 \/ instanceof_Object (valueProxy st) = false) /\
  (instanceof_Object (value st) = false -> valueProxy st = value st).

(** ** The counter of [src/sample.ts], lines 3-7 *)

(** [v - 1], on numbers. *)
Definition minus_one (v : val) : val :=
  match v with VNum n => VNum (n - 1) | _ => VUndef end.

(** The integers on which the host's arithmetic is exact. *)
Definition safe_integer (n : Z) : Prop :=
  (- 2 ^ 53 < n < 2 ^ 53)%Z.

(** [up: () => store.value++] *)
Definition up : action :=
  SyncFn (fun _ => ReadValue (fun v => WriteValue (plus_one v) (Ret v))).

(** [down: () => store.value--] *)
Definition down : action :=
  SyncFn (fun _ => ReadValue (fun v => WriteValue (minus_one v) (Ret v))).

(** [reset: () => (store.value = 0)] *)
Definition reset : action :=
  SyncFn (fun _ => WriteValue (VNum 0) (Ret (VNum 0))).

(** ** Further pieces of user code *)

(** [peek: () => { store.value[p]; }]: reads a property, changes nothing. *)
Definition peek (p : string) : action :=
  SyncFn (fun _ => ReadValue (fun view => GetProp view p (fun _ => Ret VUndef))).

(** [put: () => { store.value[p] = v; }] *)
Definition put (p : string) (v : val) : action :=
  SyncFn (fun _ => ReadValue (fun view => SetProp view p v (Ret VUndef))).

(** [fail: async () => { store.value++; throw "boom" }] *)
Definition async_fail : action :=
  AsyncFn (fun _ => increment (Throw (VStr "boom"))).

(** A property of the closure variables [value], [valueProxy], [dirty] and
    [s] (and of the count of reports) that [invalidate] and [flush] keep. *)
Record scheduler_invariant (P : state -> Prop) : Prop := SchedulerInvariant {
  inv_frame : forall st st',
    value st' = value st -> valueProxy st' = valueProxy st ->
    dirty st' = dirty st -> s st' = s st -> reports st' = reports st ->
    P st -> P st';
  inv_invalidate : forall st, P st -> P (invalidate st);
  inv_flush : forall st, P st -> P (flush st)
}.

(** [hello: async () => "hello"] *)
Definition async_hello : action :=
  AsyncFn (fun _ => Ret (ADone (VStr "hello"))).

(** "A Tracked View reference captured before an object-to-object
    replacement of the Value still forwards every subsequent property read
    to the replacement Value": at the least, a read through the captured
    view returns a value once an object has replaced the value. *)
Definition captured_view_forwards : Prop :=
  forall (st : state) (t nv : val) (p : string),
    Sample.get_value st = VProxy t ->
    instanceof_Object nv = true ->
    exists x,
      fst (js_get Sample.api (VProxy t) p (Sample.set_value nv st)) =
      Returned x.
(** * Properties of the flush scheduler *)


Lemma flush_clean st : dirty st = false -> flush st = st.
Proof. unfold flush. intros ->. reflexivity. Qed.

Lemma flush_pending st :
  dirty st = true ->
  flush st = with_dirty false (with_s (store_set (heap st) (value st) (s st)) st).
Proof. unfold flush. intros ->. reflexivity. Qed.

Lemma flush_dirty st : dirty (flush st) = false.
Proof. unfold flush. destruct (dirty st) eqn:E; simpl; auto. Qed.

Lemma flush_idem st : flush (flush st) = flush st.
Proof. apply flush_clean, flush_dirty. Qed.

Lemma flush_value st : value (flush st) = value st.
Proof. unfold flush. destruct (dirty st); reflexivity. Qed.

Lemma flush_heap st : heap (flush st) = heap st.
Proof. unfold flush. destruct (dirty st); reflexivity. Qed.

Lemma flush_microtasks st : microtasks (flush st) = microtasks st.
Proof. unfold flush. destruct (dirty st); reflexivity. Qed.

Lemma flush_promises st : promises (flush st) = promises st.
Proof. unfold flush. destruct (dirty st); reflexivity. Qed.

Lemma flush_delivered st :
  delivered (s (flush st)) =
  delivered (s st) ++ (if dirty st then [observe (heap st) (value st)] else []).
Proof.
  unfold flush. destruct (dirty st); simpl.
  - reflexivity.
  - symmetry. apply app_nil_r.
Qed.

Lemma invalidate_pending st :
  dirty st = true -> invalidate st = with_reports (S (reports st)) st.
Proof. unfold invalidate. simpl. intros ->. reflexivity. Qed.

Lemma invalidate_clean st :
  dirty st = false ->
  invalidate st =
  enqueue Checkpoint (with_dirty true (with_reports (S (reports st)) st)).
Proof. unfold invalidate. simpl. intros ->. reflexivity. Qed.

Lemma invalidate_dirty st : dirty (invalidate st) = true.
Proof. unfold invalidate. simpl. destruct (dirty st) eqn:E; simpl; auto. Qed.


Lemma signals_only_refl st : signals_only st st.
Proof.
  split; auto.
  - rewrite Nat.ltb_irrefl. destruct (dirty st); reflexivity.
  - destruct (dirty st); simpl; rewrite app_nil_r; reflexivity.
Qed.

Lemma signals_only_trans st1 st2 st3 :
  signals_only st1 st2 -> signals_only st2 st3 -> signals_only st1 st3.
Proof.
  intros [A1 A2 A3 A4 A5] [B1 B2 B3 B4 B5]. split.
  - congruence.
  - congruence.
  - lia.
  - rewrite B4, A4.
    destruct (dirty st1); simpl; auto.
    destruct (Nat.ltb_spec (reports st1) (reports st2));
      destruct (Nat.ltb_spec (reports st2) (reports st3));
      destruct (Nat.ltb_spec (reports st1) (reports st3)); simpl; auto; lia.
  - rewrite B5, A5. rewrite <- app_assoc. f_equal.
    rewrite B4. rewrite A4.
    destruct (dirty st1); simpl; auto.
    destruct (reports st1 <? reports st2); simpl; auto.
Qed.

Lemma invalidate_signals_only st : signals_only st (invalidate st).
Proof.
  unfold invalidate. simpl. destruct (dirty st) eqn:E; split; simpl; auto;
    try lia; rewrite ?E; simpl; rewrite ?app_nil_r; auto.
  - destruct (Nat.ltb_spec (reports st) (S (reports st))); auto; lia.
Qed.

Lemma with_heap_signals_only h st : signals_only st (with_heap h st).
Proof.
  split; simpl; auto.
  - rewrite Nat.ltb_irrefl. destruct (dirty st); reflexivity.
  - destruct (dirty st); simpl; rewrite app_nil_r; reflexivity.
Qed.

Lemma with_value_signals_only v st : signals_only st (with_value v st).
Proof.
  split; simpl; auto.
  - rewrite Nat.ltb_irrefl. destruct (dirty st); reflexivity.
  - destruct (dirty st); simpl; rewrite app_nil_r; reflexivity.
Qed.

Lemma with_valueProxy_signals_only v st :
  signals_only st (with_valueProxy v st).
Proof.
  split; simpl; auto.
  - rewrite Nat.ltb_irrefl. destruct (dirty st); reflexivity.
  - destruct (dirty st); simpl; rewrite app_nil_r; reflexivity.
Qed.

Lemma raw_set_signals_only st o p v : signals_only st (snd (raw_set st o p v)).
Proof.
  destruct o; simpl;
    auto using signals_only_refl, with_heap_signals_only.
Qed.

Create HintDb signals.
#[export] Hint Resolve signals_only_refl invalidate_signals_only
  with_heap_signals_only with_value_signals_only with_valueProxy_signals_only
  raw_set_signals_only : signals.

Lemma signals_only_pending st st' :
  signals_only st st' -> reports st < reports st' -> dirty st' = true.
Proof.
  intros H Hlt. rewrite (sig_dirty _ _ H).
  destruct (Nat.ltb_spec (reports st) (reports st')); [|lia].
  apply orb_true_r.
Qed.

Lemma signals_only_mono st st' :
  signals_only st st' -> dirty st = true -> dirty st' = true.
Proof. intros H Hd. rewrite (sig_dirty _ _ H), Hd. reflexivity. Qed.


Section Tracked.
Context (api : accessor) `{!Tracker api}.

Lemma js_get_signals o p st : signals_only st (snd (js_get api o p st)).
Proof.
  destruct o; simpl; auto with signals. apply proxy_get_signals.
Qed.

Lemma js_set_signals o p v st : signals_only st (snd (js_set api o p v st)).
Proof.
  destruct o; simpl; auto with signals.
  - pose proof (proxy_set_signals o p v st) as H.
    destruct (proxy_set api o p v st) as [[r|e] st']; simpl in *; auto.
    destruct (truthy r); auto.
Qed.

Lemma run_signals {R} (c : prog R) st : signals_only st (snd (run api c st)).
Proof.
  revert st. induction c as [r|e|k IH|v k IH|o p k IH|o p v k IH|props k IH];
    intros st; simpl.
  - apply signals_only_refl.
  - apply signals_only_refl.
  - apply IH.
  - eapply signals_only_trans; [apply set_value_signals | apply IH].
  - pose proof (js_get_signals o p st) as H.
    destruct (js_get api o p st) as [[x|e] st']; simpl in *; auto.
    eapply signals_only_trans; [exact H | apply IH].
  - pose proof (js_set_signals o p v st) as H.
    destruct (js_set api o p v st) as [[x|e] st']; simpl in *; auto.
    eapply signals_only_trans; [exact H | apply IH].
  - eapply signals_only_trans; [apply with_heap_signals_only | apply IH].
Qed.
End Tracked.

#[export] Instance sample_tracker : Tracker Sample.api.
Proof.
  split; simpl.
  - intros v st. unfold Sample.set_value.
    eapply signals_only_trans; [apply invalidate_signals_only|].
    eapply signals_only_trans; [apply with_value_signals_only|].
    destruct (instanceof_Object _); auto with signals.
  - intros t p st. unfold Sample.proxy_get.
    destruct (value (invalidate st)); simpl; auto with signals.
  - intros t p v st. unfold Sample.proxy_set.
    destruct (value (invalidate st)) eqn:E; simpl; auto with signals.
    eapply signals_only_trans; [apply invalidate_signals_only|].
    apply with_heap_signals_only.
Qed.

#[export] Instance part001_tracker : Tracker Part001.api.
Proof.
  split; simpl.
  - intros v st. unfold Part001.set_value, Part001.makeStateProxy.
    eapply signals_only_trans; [apply invalidate_signals_only|].
    eapply signals_only_trans; [apply with_value_signals_only|].
    apply with_valueProxy_signals_only.
  - intros t p st. apply invalidate_signals_only.
  - intros t p v st. apply invalidate_signals_only.
Qed.

#[export] Instance revision_tracker rev : Tracker (api_of rev).
Proof. destruct rev; simpl; apply _. Qed.

(** ** Checkpoints in the queue *)

Section Checkpoints.
Variable api : accessor.

Lemma tick_checkpoint st q :
  microtasks st = Checkpoint :: q ->
  tick api st = Some (flush (with_microtasks q st)).
Proof. unfold tick. intros ->. reflexivity. Qed.

Lemma drain_checkpoints_clean n : forall st,
  Forall (eq Checkpoint) (microtasks st) ->
  dirty st = false ->
  s (drain api n st) = s st.
Proof.
  induction n as [|n IH]; intros st Hq Hd; simpl; [reflexivity|].
  unfold tick. destruct (microtasks st) as [|t q] eqn:E; [reflexivity|].
  inversion Hq as [|? ? Ht Hq']; subst. simpl.
  rewrite flush_clean by exact Hd.
  rewrite IH; auto.
Qed.

Lemma drain_checkpoints_pending n st :
  Forall (eq Checkpoint) (microtasks st) ->
  microtasks st <> [] ->
  s (drain api (S n) st) = s (flush st).
Proof.
  intros Hq Hne. simpl. unfold tick.
  destruct (microtasks st) as [|t q] eqn:E; [congruence|].
  inversion Hq as [|? ? Ht Hq']; subst. simpl.
  rewrite drain_checkpoints_clean.
  - unfold flush. simpl. destruct (dirty st); reflexivity.
  - rewrite flush_microtasks. exact Hq'.
  - apply flush_dirty.
Qed.
End Checkpoints.

Lemma well_scheduled_signals st st' :
  signals_only st st' -> well_scheduled st -> well_scheduled st'.
Proof.
  intros H W Hd. rewrite (sig_tasks _ _ H). apply in_or_app.
  destruct (dirty st) eqn:E.
  - left. apply W. exact E.
  - right. rewrite Hd. left. reflexivity.
Qed.

Lemma call_sync_signals rev body args st :
  signals_only st (snd (call (api_of rev) (SyncFn body) args st)).
Proof. simpl. apply run_signals. apply _. Qed.

Lemma call_threw_sync rev f args st e st1 :
  call (api_of rev) f args st = (Threw e, st1) ->
  exists body, f = SyncFn body.
Proof.
  destruct f as [body|body]; [eauto|].
  simpl. discriminate.
Qed.

(** * The claims *)

(** C7.  Every flush, forced or run by a checkpoint, pushes the value of the
    variable [value] as it is when the flush runs.  Whatever user code [c]
    does between the report and the flush, the one notification of the
    flush carries the value, and for an object its properties, that [c]
    left; a checkpoint does exactly what a forced flush does. *)
Theorem flush_pushes_latest_value (rev : revision) {R : Type} (c : prog R)
    (st : state) :
  let st1 := snd (run (api_of rev) c (invalidate st)) in
  run_task (api_of rev) Checkpoint st1 = flush st1 /\
  stored (s (flush st1)) = value st1 /\
  delivered (s (flush st1)) =
    delivered (s st) ++ [observe (heap st1) (value st1)].
Proof.
  intros st1.
  assert (H : signals_only (invalidate st) st1)
    by (apply run_signals; apply _).
  assert (Hd : dirty st1 = true)
    by (eapply signals_only_mono; [exact H | apply invalidate_dirty]).
  split; [reflexivity|].
  rewrite (flush_pending _ Hd). simpl. split; [reflexivity|].
  rewrite (sig_s _ _ H), (sig_s _ _ (invalidate_signals_only st)).
  reflexivity.
Qed.

(** C6, as the specification words it, fails in both revisions: two calls
    of an action in a row leave two checkpoints in the queue, because the
    forced flush of the first call cleans the token and leaves its
    checkpoint queued. *)
Lemma two_checkpoints_queued :
  ~ at_most_one_scheduled sample_ts /\ ~ at_most_one_scheduled part_001.
Proof.
  split; intros H;
    specialize (H [] (VNum 0) [Invoke next1 []; Invoke next1 []]);
    vm_compute in H; lia.
Qed.

(** C6, amended.  A call of [invalidate] while the token is pending queues
    nothing, a call while it is clean queues exactly one checkpoint, and
    either way the token is pending afterwards and the store untouched.  A
    flush notifies only when the token is pending and cleans it, so a second
    flush with no report in between, such as a checkpoint left in the queue
    by a forced flush, notifies nobody. *)
Theorem token_guards_scheduling (st : state) :
  microtasks (invalidate st) =
    microtasks st ++ (if dirty st then [] else [Checkpoint]) /\
  scheduled (invalidate st) = scheduled st + (if dirty st then 0 else 1) /\
  dirty (invalidate st) = true /\
  s (invalidate st) = s st /\
  delivered (s (flush st)) =
    delivered (s st) ++
      (if dirty st then [observe (heap st) (value st)] else []) /\
  flush (flush st) = flush st.
Proof.
  repeat split.
  - unfold invalidate. simpl. destruct (dirty st); simpl;
      rewrite ?app_nil_r; reflexivity.
  - unfold scheduled, invalidate. simpl. destruct (dirty st); simpl.
    + lia.
    + rewrite filter_app, length_app. reflexivity.
  - apply invalidate_dirty.
  - apply (sig_s _ _ (invalidate_signals_only st)).
  - apply flush_delivered.
  - apply flush_idem.
Qed.

(** What does hold in [part_001], where only the setter calls [invalidate]:
    a call of a bound action whose body is synchronous, returns, and has
    called [invalidate] at least once delivers exactly one notification:
    the forced flush delivers the value the body left, and the checkpoints
    still queued deliver nothing when they run. *)
Theorem batching (body : list val -> prog val) (args : list val)
    (st st1 : state) (r : val) :
  call Part001.api (SyncFn body) args st = (Returned r, st1) ->
  reports st < reports st1 ->
  Part001.bound (SyncFn body) args st = (Returned r, flush st1) /\
  delivered (s (flush st1)) =
    delivered (s st) ++ [observe (heap st1) (value st1)] /\
  (Forall (eq Checkpoint) (microtasks st) ->
   forall n, delivered (s (drain Part001.api n (flush st1))) =
             delivered (s (flush st1))).
Proof.
  intros Hcall Hsig.
  pose proof (call_sync_signals part_001 body args st) as H.
  simpl api_of in H. rewrite Hcall in H. simpl in H.
  assert (Hd : dirty st1 = true) by (eapply signals_only_pending; eauto).
  split; [|split].
  - unfold Part001.bound. rewrite Hcall. reflexivity.
  - rewrite flush_delivered, Hd, (sig_s _ _ H). reflexivity.
  - intros Hq n. rewrite drain_checkpoints_clean; auto using flush_dirty.
    rewrite flush_microtasks, (sig_tasks _ _ H).
    apply Forall_app. split; [exact Hq|].
    destruct (dirty st); [constructor|]. rewrite Hd.
    constructor; [reflexivity|constructor].
Qed.

(** The scenario of the specification: initial value [0], an action that
    does [value = value + 1] three times, one call: one notification, with
    the value [3]. *)
Lemma batching_witness :
  let st0 := Part001.init [] (VNum 0) in
  let st1 := snd (call Part001.api next3 [] st0) in
  reports st0 < reports st1 /\
  Part001.bound next3 [] st0 = (Returned VUndef, flush st1) /\
  delivered (s (flush st1)) = [(VNum 3, None)] /\
  forall n, delivered (s (drain Part001.api n (flush st1))) = [(VNum 3, None)].
Proof.
  intros st0 st1.
  assert (Hsig : reports st0 < reports st1) by (vm_compute; lia).
  destruct (batching (fun _ => increment (increment (increment (Ret VUndef))))
              [] st0 st1 VUndef eq_refl Hsig) as (Hb & Hd & Hq).
  split; [exact Hsig|]. split; [exact Hb|]. split; [exact Hd|].
  intros n. rewrite Hq; [exact Hd|constructor].
Defined.

(** C1: evaluation of both revisions at the failing inputs.
    [src/unnamed/part_001], [stetson({count: 0})] with the action
    [add: () => store.value.count++]: the call reads and writes a property
    of the value, [count] becomes 1, [invalidate] is never called, and no
    subscriber is called, neither by the forced flush nor by a checkpoint.
    [src/sample.ts], the same container with an action that increments
    [count] and returns [store.value]: the call delivers two notifications.
    The scenario of the claim, three reassignments of the value [0], gives
    the one notification with [3] in both revisions. *)
Theorem property_access_not_batched :
  (let st := after part_001 [Invoke add []] (Part001.init [count_is 0] (VObj 0)) in
   heap st = [count_is 1] /\ reports st = 0 /\
   notifications part_001 [count_is 0] (VObj 0) [Invoke add []] = []) /\
  notifications sample_ts [count_is 0] (VObj 0) [Invoke returns_view []] =
    [(VObj 0, Some (count_is 1)); (VObj 0, Some (count_is 1))] /\
  (forall rev,
     notifications rev [] (VNum 0) [Invoke next3 []] = [(VNum 3, None)]).
Proof.
  split; [|split].
  - split; [|split]; vm_compute; reflexivity.
  - vm_compute. reflexivity.
  - intros rev. destruct rev; vm_compute; reflexivity.
Qed.

(** C2, as the specification words it, fails in both revisions: the wrapper
    has no [try]/[finally], so a throw skips [flush()]. *)
Lemma throw_skips_forced_flush :
  ~ flush_forced_on_throw sample_ts /\ ~ flush_forced_on_throw part_001.
Proof.
  split; intros H.
  - destruct (H fail1 [] (Sample.init [] (VNum 0)) _ _ eq_refl) as [_ Hs].
    vm_compute in Hs. discriminate Hs.
  - destruct (H fail1 [] (Part001.init [] (VNum 0)) _ _ eq_refl) as [_ Hs].
    vm_compute in Hs. discriminate Hs.
Qed.

(** C2, amended.  In both revisions an error thrown by the action reaches
    the caller unchanged, together with the state the action left: nothing
    is rolled back, nothing is flushed and no subscriber is called before
    control returns.  If the action raised a mutation signal before it
    threw, the token is pending, its checkpoint is in the queue, and the
    flush of that checkpoint delivers the value the action left. *)
Theorem throw_leaves_flush_to_checkpoint (rev : revision) (f : action)
    (args : list val) (st st1 : state) (e : val) :
  call (api_of rev) f args st = (Threw e, st1) ->
  well_scheduled st ->
  bound_of rev f args st = (Threw e, st1) /\
  s st1 = s st /\
  (reports st < reports st1 ->
   dirty st1 = true /\ In Checkpoint (microtasks st1) /\
   delivered (s (run_task (api_of rev) Checkpoint st1)) =
     delivered (s st) ++ [observe (heap st1) (value st1)]).
Proof.
  intros Hcall W.
  destruct (call_threw_sync _ _ _ _ _ _ Hcall) as [body ->].
  pose proof (call_sync_signals rev body args st) as H.
  rewrite Hcall in H. simpl in H.
  split; [|split].
  - destruct rev; simpl bound_of; unfold Sample.bound, Part001.bound;
      simpl api_of in Hcall; rewrite Hcall; reflexivity.
  - apply (sig_s _ _ H).
  - intros Hsig.
    assert (Hd : dirty st1 = true) by (eapply signals_only_pending; eauto).
    split; [exact Hd|]. split.
    + eapply well_scheduled_signals; eauto.
    + simpl run_task. rewrite flush_delivered, Hd, (sig_s _ _ H). reflexivity.
Qed.

(** An action that increments the value and throws: the caller gets the
    error, no subscriber has been called, and the checkpoint delivers [1]. *)
Lemma throw_leaves_flush_to_checkpoint_witness :
  let st0 := Sample.init [] (VNum 0) in
  let st1 := snd (call Sample.api fail1 [] st0) in
  Sample.bound fail1 [] st0 = (Threw (VStr "boom"), st1) /\
  delivered (s st1) = [] /\
  delivered (s (run_task Sample.api Checkpoint st1)) = [(VNum 1, None)].
Proof.
  intros st0 st1.
  assert (W : well_scheduled st0) by (intros Hd; vm_compute in Hd; discriminate Hd).
  destruct (throw_leaves_flush_to_checkpoint sample_ts fail1 [] st0 st1
              (VStr "boom") eq_refl W) as (Hb & Hs & Hc).
  split; [exact Hb|]. split; [rewrite Hs; reflexivity|].
  assert (Hsig : reports st0 < reports st1) by (vm_compute; lia).
  destruct (Hc Hsig) as (_ & _ & Hdel). exact Hdel.
Defined.

(** ** The public object *)

Lemma build_lookup (b : gmap string action) (k : string) :
  build b !! k =
  match b !! k with
  | Some f => Some (Wrapped f)
  | None => if decide (k = "subscribe") then Some StoreSubscribe else None
  end.
Proof.
  unfold build. revert k.
  apply (map_fold_weak_ind
           (fun (r : gmap string member) (m : gmap string action) =>
              forall k, r !! k =
                match m !! k with
                | Some f => Some (Wrapped f)
                | None =>
                    if decide (k = "subscribe") then Some StoreSubscribe
                    else None
                end)).
  - intros k. rewrite lookup_empty. case_decide as E.
    + subst k. apply lookup_singleton_eq.
    + apply lookup_singleton_ne. congruence.
  - intros i x m r Hi IH k.
    destruct (decide (i = k)) as [->|Hne].
    + rewrite !lookup_insert_eq. reflexivity.
    + rewrite !lookup_insert_ne by exact Hne. apply IH.
Qed.

Lemma build_dom (b : gmap string action) :
  dom (build b) = {["subscribe"]} ∪ dom b.
Proof.
  apply set_eq. intros k.
  rewrite elem_of_union, !elem_of_dom, elem_of_singleton, build_lookup.
  destruct (b !! k) as [f|] eqn:E.
  - split; [intros _; right; eauto | intros _; eauto].
  - case_decide as Hk.
    + split; [intros _; left; exact Hk | intros _; eauto].
    + split; [intros [x Hx]; discriminate Hx|].
      intros [Hs|[x Hx]]; [contradiction | discriminate Hx].
Qed.

(** C9, as the specification words it, fails: when the builder returns a
    property named [subscribe], the loop overwrites [res.subscribe] with the
    wrapped action. *)
Lemma builder_can_shadow_subscribe : ~ surface_as_specified.
Proof.
  intros H. destruct (H {["subscribe" := next1]}) as [_ Hs].
  rewrite build_lookup, lookup_singleton_eq in Hs. discriminate Hs.
Qed.

(** C9, amended.  [actions] runs the builder once, and the object it returns
    has the property [subscribe] and the names the builder returned, nothing
    else.  Each name the builder returned holds the wrapped action, also the
    name [subscribe]; [subscribe] is the store's own operation when the
    builder returned no property of that name.  No property holds the
    store's [set] or [update]. *)
Theorem public_surface (api : accessor) (st0 st : state)
    (builder : prog (gmap string action)) (b : gmap string action)
    (k : string) :
  run api builder st0 = (Returned b, st) ->
  actions api st0 builder = (Returned (build b), st) /\
  dom (build b) = {["subscribe"]} ∪ dom b /\
  build b !! k =
    match b !! k with
    | Some f => Some (Wrapped f)
    | None => if decide (k = "subscribe") then Some StoreSubscribe else None
    end.
Proof.
  intros Hrun. unfold actions. rewrite Hrun.
  split; [reflexivity|]. split; [apply build_dom | apply build_lookup].
Qed.

(** The test "no extra methods": a builder that returns no action gives an
    object whose only property is [subscribe]. *)
Lemma public_surface_witness :
  Sample.stetson [] (VNum 0) (Ret ∅) =
    (Returned (build ∅), Sample.init [] (VNum 0)) /\
  dom (build ∅) = ({["subscribe"]} : gset string) /\
  build ∅ !! "subscribe" = Some StoreSubscribe.
Proof.
  destruct (public_surface Sample.api (Sample.init [] (VNum 0)) _ (Ret ∅) ∅
              "subscribe" eq_refl) as (Ha & Hd & Hk).
  split; [exact Ha|]. split.
  - rewrite Hd, dom_empty_L. apply (right_id_L ∅ (∪)).
  - rewrite Hk. reflexivity.
Defined.

(** ** The tracked view of [src/sample.ts] *)

Lemma write_field_other l l' p v (h : list obj) :
  l <> l' -> write_field l p v h !! l' = h !! l'.
Proof.
  intros Hne. unfold write_field. destruct (h !! l); [|reflexivity].
  apply list_lookup_insert_ne. exact Hne.
Qed.

Lemma write_field_same l p v (h : list obj) o :
  h !! l = Some o -> write_field l p v h !! l = Some (<[p := v]> o).
Proof.
  intros Hl. unfold write_field. rewrite Hl.
  apply list_lookup_insert_eq. eapply lookup_lt_Some. exact Hl.
Qed.

Lemma invalidate_heap st : heap (invalidate st) = heap st.
Proof. unfold invalidate. simpl. destruct (dirty st); reflexivity. Qed.

Lemma invalidate_value st : value (invalidate st) = value st.
Proof. unfold invalidate. simpl. destruct (dirty st); reflexivity. Qed.

Lemma invalidate_valueProxy st : valueProxy (invalidate st) = valueProxy st.
Proof. unfold invalidate. simpl. destruct (dirty st); reflexivity. Qed.

Lemma invalidate_reports st : reports (invalidate st) = S (reports st).
Proof. unfold invalidate. simpl. destruct (dirty st); reflexivity. Qed.

(** C10, as it is worded, fails: the replacing object can be the tracked
    view itself, as in [store.value = store.value].  The variable [value]
    then holds the proxy, the [get] handler reads [value[p]] through the
    proxy again without end, and the read through the captured view throws
    [RangeError] instead of returning a property. *)
Lemma view_as_value_breaks_forwarding : ~ captured_view_forwards.
Proof.
  intros H.
  destruct (H (Sample.init [count_is 0] (VObj 0)) (VObj 0)
              (VProxy (VObj 0)) "count" eq_refl eq_refl) as [x Hx].
  vm_compute in Hx. discriminate Hx.
Qed.

(** C10, amended.  In [src/sample.ts], let [view] be the tracked view read
    from the accessor before the value is replaced by the plain object at
    [l1].  The
    replacement leaves the accessor handing out the same view, and from then
    on, as long as the value is that object, a read of a property through
    the view reports a signal and returns the property of the object at
    [l1], and a write reports a signal and writes the object at [l1] and no
    other object: the target [t] the view was built on plays no part. *)
Theorem captured_view_follows_replacement (st : state) (t : val) (l1 : loc) :
  Sample.get_value st = VProxy t ->
  let st1 := Sample.set_value (VObj l1) st in
  value st1 = VObj l1 /\
  Sample.get_value st1 = VProxy t /\
  forall (st' : state) (p : string) (v : val),
    value st' = VObj l1 ->
    js_get Sample.api (VProxy t) p st' =
      (Returned (field (heap st') l1 p), invalidate st') /\
    js_set Sample.api (VProxy t) p v st' =
      (if truthy v then Returned v else Threw TypeError,
       with_heap (write_field l1 p v (heap st')) (invalidate st')) /\
    forall l0, l0 <> l1 ->
      heap (snd (js_set Sample.api (VProxy t) p v st')) !! l0 = heap st' !! l0.
Proof.
  intros Hview st1. unfold Sample.get_value in *.
  split; [|split].
  - unfold st1, Sample.set_value. simpl. reflexivity.
  - unfold st1, Sample.set_value. simpl.
    rewrite invalidate_valueProxy. exact Hview.
  - intros st' p v Hv.
    assert (E1 : js_get Sample.api (VProxy t) p st' =
                 (Returned (field (heap st') l1 p), invalidate st')).
    { simpl. unfold Sample.proxy_get.
      rewrite invalidate_value, Hv, invalidate_heap. reflexivity. }
    assert (E2 : js_set Sample.api (VProxy t) p v st' =
                 (if truthy v then Returned v else Threw TypeError,
                  with_heap (write_field l1 p v (heap st')) (invalidate st'))).
    { simpl. unfold Sample.proxy_set.
      rewrite invalidate_value, Hv. simpl. rewrite invalidate_heap.
      destruct (truthy v); reflexivity. }
    split; [exact E1|]. split; [exact E2|].
    intros l0 Hne. rewrite E2. simpl. apply write_field_other. congruence.
Qed.

(** The view of [{count: 0}] is kept, the value is replaced by a new object
    [{count: 5}], and [count] is read and written through the old view. *)
Lemma captured_view_follows_replacement_witness :
  let st := Sample.init [count_is 0; count_is 5] (VObj 0) in
  let st1 := Sample.set_value (VObj 1) st in
  Sample.get_value st1 = VProxy (VObj 0) /\
  fst (js_get Sample.api (VProxy (VObj 0)) "count" st1) = Returned (VNum 5) /\
  heap (snd (js_set Sample.api (VProxy (VObj 0)) "count" (VNum 6) st1)) =
    [count_is 0; count_is 6].
Proof.
  intros st st1.
  destruct (captured_view_follows_replacement st (VObj 0) 1 eq_refl)
    as (Hv & Hg & Hrw).
  destruct (Hrw st1 "count" (VNum 6) Hv) as (E1 & E2 & _).
  split; [exact Hg|]. split.
  - fold st1. rewrite E1. reflexivity.
  - fold st1. rewrite E2. vm_compute. reflexivity.
Defined.

(** C4: evaluation of both revisions at the failing inputs.
    [src/sample.ts], [stetson(null)] with the actions [init] and [add] of
    the test "proxy is created after lazy object init": after [init()] the
    value is the new object but the accessor still hands out [null], so
    [add()] throws and the only notification is the one of [init()].
    [src/unnamed/part_001], [stetson({count: 0})] with the actions [replace]
    and [add] of the test "object assignment preserves proxy": after
    [replace()] the proxy is rebuilt over the new object but the accessor
    hands out the object itself, so [add()] sets [count] to 2 without a
    signal and the only notification is the one of [replace()]. *)
Theorem replaced_value_not_tracked :
  (let st := after sample_ts [Invoke lazy_init []] (Sample.init [] VNull) in
   value st = VObj 0 /\
   Sample.get_value st = VNull /\
   fst (Sample.bound add [] st) = Threw TypeError /\
   notifications sample_ts [] VNull [Invoke lazy_init []; Invoke add []] =
     [(VObj 0, Some (count_is 0))]) /\
  (let st0 := Part001.init [count_is 0] (VObj 0) in
   let st := after part_001 [Invoke replace []] st0 in
   valueProxy st = VProxy (VObj 1) /\
   Part001.get_value st = VObj 1 /\
   heap (after part_001 [Invoke replace []; Invoke add []] st0) !! 1 =
     Some (count_is 2) /\
   notifications part_001 [count_is 0] (VObj 0)
     [Invoke replace []; Invoke add []] = [(VObj 1, Some (count_is 1))]).
Proof. vm_compute. repeat split. Qed.

(** What the setter of [src/sample.ts] does to the view in general: a
    primitive view is kept when the new value is an object. *)
Lemma sample_setter_keeps_primitive_view (st : state) (v : val) :
  instanceof_Object v = true ->
  Sample.get_value (Sample.set_value v st) = valueProxy st.
Proof.
  intros Hv. unfold Sample.get_value, Sample.set_value. simpl.
  rewrite Hv. simpl. apply invalidate_valueProxy.
Qed.

(** The setter of [src/unnamed/part_001] rebuilds the proxy, and the getter
    does not hand it out. *)
Lemma part001_setter_rebuilds_unused_view (st : state) (v : val) :
  instanceof_Object v = true ->
  valueProxy (Part001.set_value v st) = VProxy v /\
  Part001.get_value (Part001.set_value v st) = v.
Proof.
  intros Hv. unfold Part001.get_value, Part001.set_value,
    Part001.makeStateProxy. simpl. rewrite Hv. split; reflexivity.
Qed.

(** C5: evaluation of both revisions at the failing inputs.
    In [src/unnamed/part_001] the getter returns the object itself although
    the tracked view exists, a read through the tracked view raises the
    signal and then throws [ReferenceError] instead of returning the
    property, and the test "mutation triggers update" ends with [count]
    changed and no notification.  In [src/sample.ts], once an object has
    replaced a primitive value, the getter returns the old primitive. *)
Theorem getter_hands_out_untracked_value :
  (forall h l,
     valueProxy (Part001.init h (VObj l)) = VProxy (VObj l) /\
     Part001.get_value (Part001.init h (VObj l)) = VObj l) /\
  (forall t p st,
     js_get Part001.api (VProxy t) p st = (Threw ReferenceError, invalidate st)) /\
  mutation_test part_001 = Some [] /\
  (let st := Sample.set_value (VObj 0) (Sample.init [count_is 0] (VNum 7)) in
   value st = VObj 0 /\ Sample.get_value st = VNum 7).
Proof.
  split; [|split; [|split]].
  - intros h l. split; reflexivity.
  - intros t p st. reflexivity.
  - vm_compute. reflexivity.
  - vm_compute. split; reflexivity.
Qed.

(** In [src/sample.ts] the same test delivers the one notification. *)
Lemma sample_mutation_test :
  mutation_test sample_ts = Some [(VObj 0, Some (count_is 1))].
Proof. vm_compute. reflexivity. Qed.

(** ** Promises *)

Lemma lookup_fresh_promise (ps : list promise) :
  (ps ++ [Pending []]) !! length ps = Some (Pending []).
Proof. apply list_lookup_middle. reflexivity. Qed.

Lemma filter_finally_signals st st' :
  signals_only st st' ->
  filter (fun t => is_finally t = true) (microtasks st') =
  filter (fun t => is_finally t = true) (microtasks st).
Proof.
  intros H. rewrite (sig_tasks _ _ H), filter_app.
  destruct (dirty st); [apply app_nil_r|].
  destruct (dirty st'); apply app_nil_r.
Qed.

Section Async.
Context (api : accessor) `{!Tracker api}.

(** An async action returns a promise of its own, which nothing is derived
    from yet, and queues no reaction. *)
Lemma call_async_own_promise (body : list val -> prog astep) args st :
  let p := length (promises st) in
  let r := call api (AsyncFn body) args st in
  fst r = Returned (VPromise p) /\
  s (snd r) = s st /\
  length (promises (snd r)) = S p /\
  (promises (snd r) !! p = Some (Pending []) \/
   exists o, promises (snd r) !! p = Some (Settled o)) /\
  filter (fun t => is_finally t = true) (microtasks (snd r)) =
    filter (fun t => is_finally t = true) (microtasks st).
Proof.
  intros p r. subst r. simpl.
  set (st' := with_promises (promises st ++ [Pending []]) st).
  pose proof (run_signals api (body args) st') as H.
  destruct (run api (body args) st') as [res st1]. simpl in H.
  assert (Hps : promises st1 = promises st ++ [Pending []])
    by (rewrite (sig_promises _ _ H); reflexivity).
  assert (Hs : s st1 = s st) by (rewrite (sig_s _ _ H); reflexivity).
  assert (Hq : filter (fun t => is_finally t = true) (microtasks st1) =
               filter (fun t => is_finally t = true) (microtasks st))
    by (rewrite (filter_finally_signals _ _ H); reflexivity).
  assert (Hp : promises st1 !! p = Some (Pending []))
    by (rewrite Hps; apply lookup_fresh_promise).
  assert (Hlen : length (promises st1) = S p)
    by (rewrite Hps, length_app; simpl; unfold p; lia).
  assert (Hsettle : forall o,
    s (settle p o st1) = s st /\
    length (promises (settle p o st1)) = S p /\
    promises (settle p o st1) !! p = Some (Settled o) /\
    filter (fun t => is_finally t = true) (microtasks (settle p o st1)) =
      filter (fun t => is_finally t = true) (microtasks st)).
  { intros o. unfold settle. rewrite Hp. simpl.
    rewrite length_insert, app_nil_r. repeat split; auto.
    apply list_lookup_insert_eq. lia. }
  split; [reflexivity|].
  destruct res as [[v|k]|e]; simpl.
  - destruct (Hsettle (Fulfilled v)) as (A & B & C & D). eauto 10.
  - rewrite filter_app. simpl. rewrite app_nil_r. eauto 10.
  - destruct (Hsettle (Rejected e)) as (A & B & C & D). eauto 10.
Qed.

(** When a pending promise settles, every promise chained to it gets its
    reaction queued, with the same outcome. *)
Lemma settle_queues_reaction p p' o st :
  (exists ds, promises st !! p = Some (Pending ds)) ->
  chained st p p' ->
  In (Finally p' o) (microtasks (settle p o st)).
Proof.
  intros [ds Hp] Hc. unfold chained in Hc. rewrite Hp in Hc.
  unfold settle. rewrite Hp. simpl. apply in_or_app. right.
  apply in_map_iff. eauto.
Qed.

(** The reaction of a derived promise flushes, then settles the promise
    with the outcome it carries. *)
Lemma finally_task_flushes_then_settles p' o st ds :
  promises st !! p' = Some (Pending ds) ->
  let st' := run_task api (Finally p' o) st in
  s st' = s (flush st) /\ dirty st' = false /\
  promises st' !! p' = Some (Settled o).
Proof.
  intros Hp st'. subst st'. simpl. unfold settle.
  rewrite flush_promises, Hp. simpl.
  repeat split.
  - apply flush_dirty.
  - apply list_lookup_insert_eq. eapply lookup_lt_Some. exact Hp.
Qed.
End Async.

(** [r.finally(flush)] on a promise of the table derives a fresh pending
    promise that is chained to [r]; nothing else changes. *)
Lemma promise_finally_chained p st :
  p < length (promises st) ->
  let p' := length (promises st) in
  let st' := snd (promise_finally p st) in
  fst (promise_finally p st) = p' /\
  s st' = s st /\ dirty st' = dirty st /\ heap st' = heap st /\
  value st' = value st /\
  promises st' !! p' = Some (Pending []) /\
  chained st' p p'.
Proof.
  intros Hlt p' st'. subst st'. unfold promise_finally, chained. simpl.
  destruct (lookup_lt_is_Some_2 _ _ Hlt) as [[ds|o] Hp]; rewrite Hp; simpl.
  - repeat split.
    + rewrite list_lookup_insert_ne by (unfold p'; lia).
      apply lookup_fresh_promise.
    + rewrite list_lookup_insert_eq by (rewrite length_app; simpl; lia).
      apply in_or_app. right. left. reflexivity.
  - repeat split.
    + apply lookup_fresh_promise.
    + rewrite lookup_app_l by exact Hlt. rewrite Hp.
      apply in_or_app. right. left. reflexivity.
Qed.

(** In [src/sample.ts] the wrapper of an async action returns a promise
    derived from the action's own promise [r]; it is chained to [r], so that
    the settlement of [r] queues a reaction that flushes and then settles
    the derived promise with the outcome of [r]. *)
Lemma sample_attaches_flush (body : list val -> prog astep) args st :
  let p := length (promises st) in
  let res := Sample.bound (AsyncFn body) args st in
  fst res = Returned (VPromise (S p)) /\
  promises (snd res) !! S p = Some (Pending []) /\
  chained (snd res) p (S p).
Proof.
  intros p res. subst res.
  destruct (call_async_own_promise Sample.api body args st)
    as (Hr & Hs & Hlen & Hp & Hq).
  unfold Sample.bound.
  destruct (call Sample.api (AsyncFn body) args st) as [r st1].
  simpl in Hr, Hs, Hlen, Hp, Hq. subst r. fold p in Hlen, Hp.
  unfold Sample.chain. simpl truthy. cbv iota. fold p.
  assert (Hlt : p < length (promises (flush st1)))
    by (rewrite flush_promises; lia).
  destruct (promise_finally_chained p (flush st1) Hlt)
    as (Hf & _ & _ & _ & _ & Hp' & Hc).
  rewrite flush_promises, Hlen in Hf, Hp', Hc.
  destruct (promise_finally p (flush st1)) as [p' st2]. simpl in *.
  subst p'. auto.
Qed.

(** C3: evaluation of [src/unnamed/part_001] at the failing input.  For every
    async action the wrapper returns the action's own promise; no promise
    is derived from it and no reaction is queued, so nothing runs [flush]
    when it settles.  For the action of the test "final update is flushed
    before action resolve", [src/sample.ts] registers the derived promise
    [1] with the promise [0] of the action, and [part_001] registers
    nothing. *)
Theorem part001_attaches_no_flush (body : list val -> prog astep)
    (args : list val) (st : state) :
  let p := length (promises st) in
  let res := Part001.bound (AsyncFn body) args st in
  fst res = Returned (VPromise p) /\
  (promises (snd res) !! p = Some (Pending []) \/
   exists o, promises (snd res) !! p = Some (Settled o)) /\
  filter (fun t => is_finally t = true) (microtasks (snd res)) =
    filter (fun t => is_finally t = true) (microtasks st) /\
  promises (snd (Part001.bound async_next2 [] (Part001.init [] (VNum 0)))) =
    [Pending []] /\
  promises (snd (Sample.bound async_next2 [] (Sample.init [] (VNum 0)))) =
    [Pending [1]; Pending []].
Proof.
  intros p res. subst res.
  destruct (call_async_own_promise Part001.api body args st)
    as (Hr & Hs & Hlen & Hp & Hq).
  unfold Part001.bound.
  destruct (call Part001.api (AsyncFn body) args st) as [r st1].
  simpl in Hr, Hs, Hlen, Hp, Hq. subst r. simpl.
  rewrite flush_promises, flush_microtasks.
  repeat split; auto.
Qed.

(** C8, as the specification words it, fails in [src/sample.ts]: the wrapper
    reads [res.finally] of what the action returned and, for a promise,
    calls it and returns the result of that call.  The async action of the
    test "sync update is flushed" returns its promise [0]; the caller of
    the bound action gets the promise [1] derived by [res.finally(flush)],
    another object than the one the action returned. *)
Lemma wrapper_consumes_finally : ~ return_value_unchanged sample_ts.
Proof.
  intros H.
  specialize (H async_next2 [] (Sample.init [] (VNum 0)) _ _ eq_refl).
  vm_compute in H. discriminate H.
Qed.

Lemma sample_chain_plain (r : val) (st : state) :
  match r with VPromise _ | VProxy _ => False | _ => True end ->
  truthy r && truthy (own_finally (heap st) r) = false ->
  Sample.chain r st = (Returned r, st).
Proof.
  intros Hr Hf. unfold Sample.chain, own_finally in *.
  destruct r; simpl in *; try contradiction; try reflexivity.
  - destruct b; reflexivity.
  - destruct (negb (n =? 0)%Z); reflexivity.
  - destruct (negb (String.eqb x "")); reflexivity.
  - rewrite Hf. reflexivity.
Qed.

Lemma sample_chain_view (t : val) (l : loc) (st : state) :
  value st = VObj l ->
  truthy (field (heap st) l "finally") = false ->
  fst (Sample.chain (VProxy t) st) = Returned (VProxy t).
Proof.
  intros Hv Hf. unfold Sample.chain. simpl. unfold Sample.proxy_get.
  rewrite invalidate_value, Hv, invalidate_heap. simpl.
  rewrite Hf. reflexivity.
Qed.

(** C8, amended.  In [src/unnamed/part_001] the bound action returns what
    the action returned.  In [src/sample.ts] it does so when the value is
    falsy or has no truthy [finally] property (for the tracked view: when
    the object behind it has none).  For a promise [r] of the table it
    returns the promise derived by [r.finally(flush)]: a fresh pending
    promise chained to [r].  When a pending promise settles, each promise
    chained to it gets its reaction queued with the same outcome, and that
    reaction settles the derived promise with this outcome, a value for a
    value and an error for an error. *)
Theorem return_value_passthrough (f : action) (args : list val)
    (st st1 : state) (r : val) :
  (call Part001.api f args st = (Returned r, st1) ->
   Part001.bound f args st = (Returned r, flush st1)) /\
  (call Sample.api f args st = (Returned r, st1) ->
   match r with
   | VPromise p =>
       p < length (promises st1) ->
       let p' := length (promises st1) in
       let res := Sample.bound f args st in
       fst res = Returned (VPromise p') /\
       s (snd res) = s (flush st1) /\
       promises (snd res) !! p' = Some (Pending []) /\
       chained (snd res) p p'
   | VProxy _ =>
       forall l, value st1 = VObj l ->
                 truthy (field (heap st1) l "finally") = false ->
                 fst (Sample.bound f args st) = Returned r
   | _ =>
       truthy r && truthy (own_finally (heap st1) r) = false ->
       Sample.bound f args st = (Returned r, flush st1)
   end) /\
  (forall p p' o st',
     (exists ds, promises st' !! p = Some (Pending ds)) ->
     chained st' p p' ->
     In (Finally p' o) (microtasks (settle p o st'))) /\
  (forall p' o st' ds,
     promises st' !! p' = Some (Pending ds) ->
     s (run_task Sample.api (Finally p' o) st') = s (flush st') /\
     promises (run_task Sample.api (Finally p' o) st') !! p' =
       Some (Settled o)).
Proof.
  split; [|split; [|split]].
  - intros Hcall. unfold Part001.bound. rewrite Hcall. reflexivity.
  - intros Hcall. unfold Sample.bound. rewrite Hcall.
    destruct r;
      try (intros Hf; apply sample_chain_plain;
           [exact I | rewrite flush_heap; exact Hf]).
    + intros l Hv Hf. apply (sample_chain_view _ l).
      * rewrite flush_value. exact Hv.
      * rewrite flush_heap. exact Hf.
    + intros Hlt. set (p' := length (promises st1)).
      assert (Hlt' : p < length (promises (flush st1)))
        by (rewrite flush_promises; exact Hlt).
      destruct (promise_finally_chained p (flush st1) Hlt')
        as (Hf & Hs & _ & _ & _ & Hp' & Hc).
      rewrite flush_promises in Hf, Hp'. fold p' in Hf, Hp', Hc.
      rewrite flush_promises in Hc. fold p' in Hc.
      unfold Sample.chain. simpl truthy. cbv iota.
      destruct (promise_finally p (flush st1)) as [q st2]. simpl in *.
      subst q. auto.
  - intros p p' o st'. apply settle_queues_reaction.
  - intros p' o st' ds Hp.
    destruct (finally_task_flushes_then_settles Sample.api p' o st' ds Hp)
      as (A & _ & B).
    split; [exact A | exact B].
Qed.

(** The test "return value is preserved": both revisions return ["hello"].
    An async action that returns ["hello"], in [src/sample.ts]: the caller
    gets the promise [1] derived from the promise [0] of the action, its
    reaction is queued with the value ["hello"], and that reaction settles
    the promise [1] with ["hello"]. *)
Lemma return_value_passthrough_witness :
  let st1 := snd (call Part001.api returns_hello [] (Part001.init [] (VNum 0))) in
  let st2 := snd (call Sample.api returns_hello [] (Sample.init [] (VNum 0))) in
  let res := Sample.bound async_hello [] (Sample.init [] (VNum 0)) in
  Part001.bound returns_hello [] (Part001.init [] (VNum 0)) =
    (Returned (VStr "hello"), flush st1) /\
  Sample.bound returns_hello [] (Sample.init [] (VNum 0)) =
    (Returned (VStr "hello"), flush st2) /\
  fst (call Sample.api async_hello [] (Sample.init [] (VNum 0))) =
    Returned (VPromise 0) /\
  fst res = Returned (VPromise 1) /\
  In (Finally 1 (Fulfilled (VStr "hello"))) (microtasks (snd res)) /\
  promises (run_task Sample.api (Finally 1 (Fulfilled (VStr "hello")))
              (snd res)) !! 1 = Some (Settled (Fulfilled (VStr "hello"))).
Proof.
  intros st1 st2 res.
  split.
  { exact (proj1 (return_value_passthrough returns_hello []
                    (Part001.init [] (VNum 0)) st1 (VStr "hello")) eq_refl). }
  split.
  { exact (proj1 (proj2 (return_value_passthrough returns_hello []
                    (Sample.init [] (VNum 0)) st2 (VStr "hello")))
             eq_refl eq_refl). }
  split; [reflexivity|].
  destruct (return_value_passthrough async_hello []
              (Sample.init [] (VNum 0))
              (snd (call Sample.api async_hello [] (Sample.init [] (VNum 0))))
              (VPromise 0)) as (_ & HA & _ & HF).
  assert (Hlt : 0 < length (promises
            (snd (call Sample.api async_hello [] (Sample.init [] (VNum 0))))))
    by (vm_compute; lia).
  pose proof (HA eq_refl Hlt) as (A & _ & C & D).
  pose proof (HF 1 (Fulfilled (VStr "hello")) (snd res) [] C) as (_ & F).
  vm_compute in A. vm_compute in D.
  split; [vm_compute; exact A|].
  split; [vm_compute; exact D|].
  exact F.
Defined.

(** * No signal is lost

    In every state a container reaches, a pending token has its checkpoint
    in the queue: the flush that delivers the reported change is on its
    way. *)

Lemma clean_well_scheduled st : dirty st = false -> well_scheduled st.
Proof. intros Hd Hp. congruence. Qed.

Lemma queue_grows_refl st : queue_grows st st.
Proof.
  split; [reflexivity|]. split; [reflexivity|].
  exists []. symmetry. apply app_nil_r.
Qed.

Lemma well_scheduled_grows st st' :
  queue_grows st st' -> well_scheduled st -> well_scheduled st'.
Proof.
  intros (Hd & _ & q & Hq) W Hp. rewrite Hq. apply in_or_app. left.
  apply W. congruence.
Qed.

Lemma settle_grows p o st : queue_grows st (settle p o st).
Proof.
  unfold settle. destruct (promises st !! p) as [[ds|o']|];
    try apply queue_grows_refl.
  split; [reflexivity|]. split; [reflexivity|]. simpl. eauto.
Qed.

Lemma enqueue_grows t st : queue_grows st (enqueue t st).
Proof. split; [reflexivity|]. split; [reflexivity|]. simpl. eauto. Qed.

Lemma promise_finally_grows p st :
  queue_grows st (snd (promise_finally p st)).
Proof.
  unfold promise_finally. simpl.
  destruct (promises st !! p) as [[ds|o]|]; simpl;
    (split; [reflexivity|]); (split; [reflexivity|]); simpl.
  - exists []. symmetry. apply app_nil_r.
  - eauto.
  - exists []. symmetry. apply app_nil_r.
Qed.

Lemma finish_grows p r st : queue_grows st (finish p (r, st)).
Proof.
  destruct r as [[v|k]|e]; simpl;
    auto using settle_grows, enqueue_grows.
Qed.

Section Scheduled.
Context (api : accessor) `{!Tracker api}.

Lemma call_well_scheduled f args st :
  well_scheduled st -> well_scheduled (snd (call api f args st)).
Proof.
  intros W. destruct f as [body|body]; simpl.
  - eapply well_scheduled_signals; [apply run_signals; apply _ | exact W].
  - set (st' := with_promises (promises st ++ [Pending []]) st).
    pose proof (run_signals api (body args) st') as H.
    destruct (run api (body args) st') as [r st1]. simpl in H.
    eapply well_scheduled_grows; [apply finish_grows|].
    eapply well_scheduled_signals; [exact H|]. exact W.
Qed.

Lemma tick_well_scheduled st st' :
  tick api st = Some st' -> well_scheduled st -> well_scheduled st'.
Proof.
  unfold tick. destruct (microtasks st) as [|t q] eqn:E; [discriminate|].
  intros [= <-] W.
  destruct t as [|p k|p' o]; simpl.
  - apply clean_well_scheduled, flush_dirty.
  - set (st0 := with_microtasks q st).
    assert (W0 : well_scheduled st0).
    { intros Hd. simpl in *. specialize (W Hd). rewrite E in W.
      destruct W as [W|W]; [discriminate W | exact W]. }
    pose proof (run_signals api k st0) as H.
    destruct (run api k st0) as [r st1]. simpl in H.
    eapply well_scheduled_grows; [apply finish_grows|].
    eapply well_scheduled_signals; [exact H | exact W0].
  - eapply well_scheduled_grows; [apply settle_grows|].
    apply clean_well_scheduled, flush_dirty.
Qed.
End Scheduled.

Lemma sample_chain_well_scheduled r st :
  well_scheduled st -> well_scheduled (snd (Sample.chain r st)).
Proof.
  intros W. unfold Sample.chain. destruct (truthy r); [|exact W].
  assert (G : forall st0, well_scheduled st0 ->
            well_scheduled (snd (js_get Sample.api r "finally" st0))).
  { intros st0 W0. eapply well_scheduled_signals; [|exact W0].
    apply js_get_signals. apply _. }
  assert (Hplain :
    well_scheduled
      (snd (match js_get Sample.api r "finally" st with
            | (Returned f, st1) =>
                if truthy f
                then match js_get Sample.api r "finally" st1 with
                     | (Returned _, st2) => (Threw TypeError, st2)
                     | (Threw e, st2) => (Threw e, st2)
                     end
                else (Returned r, st1)
            | (Threw e, st1) => (Threw e, st1)
            end))).
  { pose proof (G st W) as W1.
    destruct (js_get Sample.api r "finally" st) as [[f|e] st1];
      simpl in W1; [|exact W1].
    destruct (truthy f); [|exact W1].
    pose proof (G st1 W1) as W2.
    destruct (js_get Sample.api r "finally" st1) as [[x|e] st2]; exact W2. }
  destruct r; try exact Hplain.
  pose proof (promise_finally_grows p st) as Hg.
  destruct (promise_finally p st) as [p' st']. simpl in *.
  eapply well_scheduled_grows; eauto.
Qed.

Lemma bound_well_scheduled rev f args st :
  well_scheduled st -> well_scheduled (snd (bound_of rev f args st)).
Proof.
  intros W.
  pose proof (call_well_scheduled (api_of rev) f args st W) as Wc.
  destruct rev; simpl in *; unfold Sample.bound, Part001.bound.
  - destruct (call Sample.api f args st) as [[r|e] st1]; simpl in *;
      [|exact Wc].
    apply sample_chain_well_scheduled, clean_well_scheduled, flush_dirty.
  - destruct (call Part001.api f args st) as [[r|e] st1]; simpl in *;
      [|exact Wc].
    apply clean_well_scheduled, flush_dirty.
Qed.

Lemma step_well_scheduled rev e st :
  well_scheduled st -> well_scheduled (step rev st e).
Proof.
  intros W. destruct e as [f args|c|]; simpl.
  - apply bound_well_scheduled, W.
  - eapply well_scheduled_signals; [apply run_signals; apply _ | exact W].
  - destruct (tick (api_of rev) st) as [st'|] eqn:E; simpl; [|exact W].
    eapply tick_well_scheduled; eauto. apply _.
Qed.

Lemma after_well_scheduled rev es : forall st,
  well_scheduled st -> well_scheduled (after rev es st).
Proof.
  unfold after. induction es as [|e es IH]; intros st W; simpl; [exact W|].
  apply IH, step_well_scheduled, W.
Qed.

(** In every state a container reaches, in both revisions, a pending token
    has a checkpoint waiting in the microtask queue: no reported change is
    left without a flush on its way. *)
Lemma reachable_well_scheduled rev h v es :
  well_scheduled (after rev es (init_of rev h v)).
Proof.
  apply after_well_scheduled, clean_well_scheduled.
  destruct rev; reflexivity.
Qed.

(** * One notification per call in [src/sample.ts]

    The wrapper of [src/sample.ts] reads [res.finally] after the forced
    flush.  When the action returned anything but the tracked view this
    read raises no signal, and the call delivers exactly one notification;
    when it returned the tracked view, the read goes through the [get]
    handler, makes the token pending again, and the checkpoint delivers a
    second notification. *)

Lemma sample_chain_store r st :
  match r with VProxy _ => False | _ => True end ->
  s (snd (Sample.chain r st)) = s st /\
  dirty (snd (Sample.chain r st)) = dirty st.
Proof.
  intros Hr. unfold Sample.chain. destruct (truthy r); [|auto].
  destruct r; simpl in *; try contradiction; auto.
  - destruct (truthy (field (heap st) l "finally")); auto.
  - pose proof (promise_finally_grows p st) as (Hd & Hs & _).
    destruct (promise_finally p st) as [p' st']. simpl in *. auto.
Qed.

(** In [src/sample.ts], a call of a bound action whose body is synchronous,
    returns anything but the tracked view and raised at least one signal,
    a property read included, delivers exactly one notification, with the
    value the body left, and leaves the token clean. *)
Lemma sample_one_notification (body : list val -> prog val) (args : list val)
    (st st1 : state) (r : val) :
  call Sample.api (SyncFn body) args st = (Returned r, st1) ->
  reports st < reports st1 ->
  match r with VProxy _ => False | _ => True end ->
  let st2 := snd (Sample.bound (SyncFn body) args st) in
  delivered (s st2) = delivered (s st) ++ [observe (heap st1) (value st1)] /\
  dirty st2 = false.
Proof.
  intros Hcall Hsig Hr st2. subst st2.
  pose proof (call_sync_signals sample_ts body args st) as H.
  simpl api_of in H. rewrite Hcall in H. simpl in H.
  assert (Hd : dirty st1 = true) by (eapply signals_only_pending; eauto).
  unfold Sample.bound. rewrite Hcall.
  destruct (sample_chain_store r (flush st1) Hr) as [Hs Hdd].
  rewrite Hs, Hdd, flush_dirty, flush_delivered, Hd, (sig_s _ _ H).
  split; reflexivity.
Qed.

Example sample_returned_view_notifies_twice :
  notifications sample_ts [count_is 0] (VObj 0) [Invoke returns_view []] =
    [(VObj 0, Some (count_is 1)); (VObj 0, Some (count_is 1))] /\
  notifications part_001 [] (VNum 0) [Invoke next3 []] = [(VNum 3, None)].
Proof. vm_compute. split; reflexivity. Qed.

(** * The tests of the repository, run on both revisions *)

(** "updates are batched" and the scenario of the specification. *)
Example test_updates_are_batched rev :
  notifications rev [] (VNum 0) [Invoke next3 []] = [(VNum 3, None)].
Proof. destruct rev; vm_compute; reflexivity. Qed.

(** "object assignment triggers update" *)
Example test_object_assignment rev :
  notifications rev [count_is 0] (VObj 0) [Invoke replace []] =
    [(VObj 1, Some (count_is 1))].
Proof. destruct rev; vm_compute; reflexivity. Qed.

(** "object assignment preserves proxy": passes on [src/sample.ts] only. *)
Example test_object_assignment_preserves_proxy :
  notifications sample_ts [count_is 0] (VObj 0)
    [Invoke replace []; Invoke add []] =
    [(VObj 1, Some (count_is 1)); (VObj 1, Some (count_is 2))].
Proof. vm_compute. reflexivity. Qed.

(** "sync update is flushed": one notification before any microtask. *)
Example test_sync_update_is_flushed rev :
  delivered (s (after rev [Invoke async_next2 []] (init_of rev [] (VNum 0)))) =
    [(VNum 1, None)].
Proof. destruct rev; vm_compute; reflexivity. Qed.

(** "final update is flushed before action resolve" *)
Example test_final_update_is_flushed rev :
  notifications rev [] (VNum 0) [Invoke async_next2 []] =
    [(VNum 1, None); (VNum 2, None)].
Proof. destruct rev; vm_compute; reflexivity. Qed.

(** "intermediate updates are flushed in promise": three notifications, the
    last with the value 3. *)
Example test_intermediate_updates rev :
  notifications rev [] (VNum 0) [Invoke async_next3 []] =
    [(VNum 1, None); (VNum 2, None); (VNum 3, None)].
Proof. destruct rev; vm_compute; reflexivity. Qed.

(** "callback updates are flushed": the handle runs outside any action and
    its update is delivered by the checkpoint. *)
Example test_callback_updates rev :
  delivered (s (after rev [Detached handle] (init_of rev [] (VNum 0)))) = [] /\
  notifications rev [] (VNum 0) [Detached handle] = [(VNum 1, None)].
Proof. destruct rev; vm_compute; split; reflexivity. Qed.

(** * Further properties of the code *)

(** ** Invariants of a running container

    A property of the closure variables that [invalidate], [flush] and the
    setter keep is kept by everything that can happen to a container: user
    code, bound actions and microtasks. *)

Lemma settle_frame p o st :
  value (settle p o st) = value st /\
  valueProxy (settle p o st) = valueProxy st /\
  dirty (settle p o st) = dirty st /\ s (settle p o st) = s st /\
  reports (settle p o st) = reports st.
Proof.
  unfold settle. destruct (promises st !! p) as [[ds|o']|]; simpl; auto.
Qed.

Lemma finish_frame p r st :
  value (finish p (r, st)) = value st /\
  valueProxy (finish p (r, st)) = valueProxy st /\
  dirty (finish p (r, st)) = dirty st /\ s (finish p (r, st)) = s st /\
  reports (finish p (r, st)) = reports st.
Proof.
  destruct r as [[v|k]|e]; simpl; auto using settle_frame.
Qed.

Lemma promise_finally_frame p st :
  let st' := snd (promise_finally p st) in
  value st' = value st /\ valueProxy st' = valueProxy st /\
  dirty st' = dirty st /\ s st' = s st /\ reports st' = reports st.
Proof.
  unfold promise_finally. simpl.
  destruct (promises st !! p) as [[ds|o]|]; simpl; auto.
Qed.

Section Invariant.
Variable api : accessor.
Variable P : state -> Prop.
Hypothesis P_frame : forall st st',
  value st' = value st -> valueProxy st' = valueProxy st ->
  dirty st' = dirty st -> s st' = s st -> reports st' = reports st ->
  P st -> P st'.
Hypothesis P_flush : forall st, P st -> P (flush st).
Hypothesis P_set_value : forall v st, P st -> P (set_value api v st).
Hypothesis P_proxy_get : forall t p st,
  P st -> P (snd (proxy_get api t p st)).
Hypothesis P_proxy_set : forall t p v st,
  P st -> P (snd (proxy_set api t p v st)).

Lemma raw_set_inv st o p v : P st -> P (snd (raw_set st o p v)).
Proof.
  intros H. destruct o; simpl; auto.
  eapply P_frame; [..|exact H]; reflexivity.
Qed.

Lemma js_get_inv o p st : P st -> P (snd (js_get api o p st)).
Proof. intros H. destruct o; simpl; auto. Qed.

Lemma js_set_inv o p v st : P st -> P (snd (js_set api o p v st)).
Proof.
  intros H.
  destruct o as [| |b|n|x|l|o|q|name]; try exact (raw_set_inv st _ p v H).
  simpl. pose proof (P_proxy_set o p v st H) as Hp.
  destruct (proxy_set api o p v st) as [[r|e] st']; simpl in *; auto.
  destruct (truthy r); auto.
Qed.

Lemma run_inv {R : Type} (c : prog R) : forall st,
  P st -> P (snd (run api c st)).
Proof.
  induction c as [r|e|k IH|v k IH|o p k IH|o p v k IH|props k IH];
    intros st H; simpl; auto.
  - pose proof (js_get_inv o p st H) as H1.
    destruct (js_get api o p st) as [[x|e] st']; simpl in *; auto.
  - pose proof (js_set_inv o p v st H) as H1.
    destruct (js_set api o p v st) as [[x|e] st']; simpl in *; auto.
  - apply IH. eapply P_frame; [..|exact H]; reflexivity.
Qed.

Lemma finish_inv p r st : P st -> P (finish p (r, st)).
Proof.
  intros H. destruct (finish_frame p r st) as (A & B & C & D & E).
  eapply P_frame; eauto.
Qed.

Lemma call_inv f args st : P st -> P (snd (call api f args st)).
Proof.
  intros H. destruct f as [body|body]; simpl.
  - apply run_inv, H.
  - set (st' := with_promises (promises st ++ [Pending []]) st).
    assert (H' : P st') by (eapply P_frame; [..|exact H]; reflexivity).
    pose proof (run_inv (body args) st' H') as H1.
    destruct (run api (body args) st') as [r st1].
    apply finish_inv, H1.
Qed.

Lemma tick_inv st st' : tick api st = Some st' -> P st -> P st'.
Proof.
  unfold tick. destruct (microtasks st) as [|t q] eqn:E; [discriminate|].
  intros [= <-] H.
  assert (H0 : P (with_microtasks q st))
    by (eapply P_frame; [..|exact H]; reflexivity).
  destruct t as [|p k|p' o]; simpl.
  - apply P_flush, H0.
  - pose proof (run_inv k _ H0) as H1.
    destruct (run api k (with_microtasks q st)) as [r st1].
    apply finish_inv, H1.
  - destruct (settle_frame p' o (flush (with_microtasks q st)))
      as (A & B & C & D & F).
    eapply P_frame; eauto.
Qed.
End Invariant.

Section SchedulerInvariant.
Variable P : state -> Prop.
Hypothesis HP : scheduler_invariant P.

Lemma sample_proxy_get_inv t p st :
  P st -> P (snd (Sample.proxy_get t p st)).
Proof.
  intros H. unfold Sample.proxy_get.
  destruct (value (invalidate st)); simpl; apply (inv_invalidate P HP), H.
Qed.

Lemma sample_proxy_set_inv t p v st :
  P st -> P (snd (Sample.proxy_set t p v st)).
Proof.
  intros H. unfold Sample.proxy_set.
  pose proof (inv_invalidate P HP st H) as Hi.
  destruct (value (invalidate st)) eqn:E; simpl; auto.
  eapply (inv_frame P HP); [..|exact Hi]; reflexivity.
Qed.

Lemma chain_inv r st : P st -> P (snd (Sample.chain r st)).
Proof.
  intros H. unfold Sample.chain. destruct (truthy r); [|exact H].
  assert (G : forall st0, P st0 ->
            P (snd (js_get Sample.api r "finally" st0))).
  { intros st0 H0. destruct r; simpl; auto.
    apply sample_proxy_get_inv, H0. }
  assert (Hplain :
    P (snd (match js_get Sample.api r "finally" st with
            | (Returned f, st1) =>
                if truthy f
                then match js_get Sample.api r "finally" st1 with
                     | (Returned _, st2) => (Threw TypeError, st2)
                     | (Threw e, st2) => (Threw e, st2)
                     end
                else (Returned r, st1)
            | (Threw e, st1) => (Threw e, st1)
            end))).
  { pose proof (G st H) as H1.
    destruct (js_get Sample.api r "finally" st) as [[f|e] st1];
      simpl in H1; [|exact H1].
    destruct (truthy f); [|exact H1].
    pose proof (G st1 H1) as H2.
    destruct (js_get Sample.api r "finally" st1) as [[x|e] st2]; exact H2. }
  destruct r; try exact Hplain.
  destruct (promise_finally_frame p st) as (A & B & C & D & E).
  destruct (promise_finally p st) as [p' st']. simpl in *.
  eapply (inv_frame P HP); eauto.
Qed.

Lemma step_inv (rev : revision) :
  (forall v st, P st -> P (set_value (api_of rev) v st)) ->
  forall e st, P st -> P (step rev st e).
Proof.
  intros Hset.
  assert (Hget : forall t p st, P st -> P (snd (proxy_get (api_of rev) t p st))).
  { destruct rev; simpl.
    - apply sample_proxy_get_inv.
    - intros t p st H. apply (inv_invalidate P HP), H. }
  assert (Hput : forall t p v st,
            P st -> P (snd (proxy_set (api_of rev) t p v st))).
  { destruct rev; simpl.
    - apply sample_proxy_set_inv.
    - intros t p v st H. apply (inv_invalidate P HP), H. }
  pose proof (inv_frame P HP) as Hf. pose proof (inv_flush P HP) as Hfl.
  intros e st H. destruct e as [f args|c|]; simpl.
  - pose proof (call_inv (api_of rev) P Hf Hset Hget Hput f args st H) as Hc.
    destruct rev; simpl in *; unfold Sample.bound, Part001.bound.
    + destruct (call Sample.api f args st) as [[r|e] st1]; simpl in *;
        [|exact Hc].
      apply chain_inv, Hfl, Hc.
    + destruct (call Part001.api f args st) as [[r|e] st1]; simpl in *;
        [|exact Hc].
      apply Hfl, Hc.
  - apply (run_inv (api_of rev) P Hf Hset Hget Hput), H.
  - destruct (tick (api_of rev) st) as [st'|] eqn:E; simpl; [|exact H].
    eapply (tick_inv (api_of rev) P Hf Hfl Hset Hget Hput); eauto.
Qed.

Lemma after_inv (rev : revision) :
  (forall v st, P st -> P (set_value (api_of rev) v st)) ->
  forall es st, P st -> P (after rev es st).
Proof.
  intros Hset. unfold after.
  induction es as [|e es IH]; intros st H; simpl; [exact H|].
  apply IH, step_inv; auto.
Qed.
End SchedulerInvariant.

Lemma set_value_dirty rev v st : dirty (set_value (api_of rev) v st) = true.
Proof.
  destruct rev; simpl; unfold Sample.set_value, Part001.set_value,
    Part001.makeStateProxy; simpl.
  - destruct (instanceof_Object v); simpl; apply invalidate_dirty.
  - apply invalidate_dirty.
Qed.

Lemma set_value_frame rev v st :
  s (set_value (api_of rev) v st) = s st /\
  reports (set_value (api_of rev) v st) = S (reports st).
Proof.
  pose proof (sig_s _ _ (invalidate_signals_only st)) as Hs.
  pose proof (invalidate_reports st) as Hr.
  destruct rev; simpl; unfold Sample.set_value, Part001.set_value,
    Part001.makeStateProxy; simpl.
  - destruct (instanceof_Object v); simpl; auto.
  - auto.
Qed.

Lemma in_sync_invariant : scheduler_invariant in_sync.
Proof.
  split.
  - intros st st' Hv _ Hd Hs _ H Hc. rewrite Hs, Hv. apply H. congruence.
  - intros st _ Hc. rewrite invalidate_dirty in Hc. discriminate Hc.
  - intros st H _. unfold flush. destruct (dirty st) eqn:E; simpl; auto.
Qed.

(** In every state a container reaches, in both revisions, a clean token
    means that the store holds the current value: what a late subscriber or
    [get(store)] reads is stale only while a flush is pending. *)
Theorem reachable_in_sync (rev : revision) (h : list obj) (v : val)
    (es : list event) :
  in_sync (after rev es (init_of rev h v)).
Proof.
  apply (after_inv in_sync in_sync_invariant).
  - intros v' st _ Hc. rewrite set_value_dirty in Hc. discriminate Hc.
  - intros _. destruct rev; simpl.
    + reflexivity.
    + unfold Part001.init, Part001.makeStateProxy. reflexivity.
Qed.

Lemma accounted_invalidate st : accounted st -> accounted (invalidate st).
Proof.
  unfold accounted. intros H.
  rewrite invalidate_dirty, invalidate_reports,
    (sig_s _ _ (invalidate_signals_only st)).
  destruct (dirty st); lia.
Qed.

Lemma accounted_invariant : scheduler_invariant accounted.
Proof.
  split.
  - unfold accounted. intros st st' _ _ Hd Hs Hr H. rewrite Hd, Hs, Hr. exact H.
  - apply accounted_invalidate.
  - unfold accounted. intros st H. rewrite flush_dirty, flush_delivered.
    unfold flush. destruct (dirty st); simpl in *.
    + rewrite length_app. simpl. lia.
    + rewrite app_nil_r. lia.
Qed.

(** The container never notifies without a report: in every state it
    reaches, the notifications delivered so far, plus one if the token is
    pending, are at most as many as the calls of [invalidate]. *)
Theorem reachable_accounted (rev : revision) (h : list obj) (v : val)
    (es : list event) :
  accounted (after rev es (init_of rev h v)).
Proof.
  apply (after_inv accounted accounted_invariant).
  - unfold accounted. intros v' st H.
    destruct (set_value_frame rev v' st) as [Hs Hr].
    rewrite set_value_dirty, Hs, Hr. destruct (dirty st); lia.
  - destruct rev; unfold accounted; simpl; lia.
Qed.

Lemma view_rebuilt_invariant : scheduler_invariant view_rebuilt.
Proof.
  unfold view_rebuilt. split.
  - intros st st' Hv Hp _ _ _ H. rewrite Hp, Hv. exact H.
  - intros st H. rewrite invalidate_valueProxy, invalidate_value. exact H.
  - intros st H. rewrite flush_value.
    unfold flush. destruct (dirty st); simpl; exact H.
Qed.

(** In [src/unnamed/part_001] the variable [valueProxy] always holds what
    [makeStateProxy] builds for the current value, a proxy over it when it
    is an object and the value itself otherwise, although no code ever reads
    it: the accessor hands out [value]. *)
Theorem part001_view_rebuilt (h : list obj) (v : val) (es : list event) :
  let st := after part_001 es (Part001.init h v) in
  view_rebuilt st /\ get_value Part001.api st = value st.
Proof.
  intros st. split; [|reflexivity]. subst st.
  apply (after_inv view_rebuilt view_rebuilt_invariant).
  - intros v' st _. unfold view_rebuilt. reflexivity.
  - unfold view_rebuilt. reflexivity.
Qed.

Lemma view_of_construction_invariant v0 :
  scheduler_invariant (view_of_construction v0).
Proof.
  unfold view_of_construction. split.
  - intros st st' Hv Hp _ _ _ H. rewrite Hp, Hv. exact H.
  - intros st H. rewrite invalidate_valueProxy, invalidate_value. exact H.
  - intros st H. rewrite flush_value.
    unfold flush. destruct (dirty st); simpl; exact H.
Qed.

(** In [src/sample.ts] no proxy is built after construction: what the
    accessor hands out is always the proxy built on the initial value or a
    primitive, and whenever the current value is a primitive the accessor
    hands out that value. *)
Theorem sample_view_of_construction (h : list obj) (v : val)
    (es : list event) :
  let st := after sample_ts es (Sample.init h v) in
  (Sample.get_value st = VProxy v \/
   instanceof_Object (Sample.get_value st) = false) /\
  (instanceof_Object (value st) = false -> Sample.get_value st = value st).
Proof.
  intros st. subst st. unfold Sample.get_value.
  apply (after_inv (view_of_construction v) (view_of_construction_invariant v)).
  - intros v' st [H1 H2]. unfold view_of_construction. simpl.
    unfold Sample.set_value. simpl.
    destruct (instanceof_Object v') eqn:E; simpl.
    + rewrite invalidate_valueProxy. split; [exact H1|].
      intros Hc. congruence.
    + split; [right; exact E | reflexivity].
  - unfold view_of_construction. simpl.
    destruct (instanceof_Object v) eqn:E; simpl.
    + split; [left; reflexivity | intros Hc; discriminate Hc].
    + split; [right; exact E | reflexivity].
Qed.

(** ** What user code cannot do *)

(** In both revisions no code of the user reaches the store: while the body
    of an action, the first segment of an async action or a detached
    callback runs, the stored value stays what it was and no subscriber is
    called, whatever the code reads and writes. *)
Theorem user_code_never_notifies (rev : revision) :
  (forall (R : Type) (c : prog R) (st : state),
     s (snd (run (api_of rev) c st)) = s st) /\
  (forall (f : action) (args : list val) (st : state),
     s (snd (call (api_of rev) f args st)) = s st).
Proof.
  split.
  - intros R c st. apply sig_s, run_signals. apply _.
  - intros [body|body] args st.
    + apply sig_s, call_sync_signals.
    + destruct (call_async_own_promise (api_of rev) body args st)
        as (_ & Hs & _). exact Hs.
Qed.

(** ** Updates made outside an action *)

(** A callback that kept the accessor and runs outside any action, from a
    clean token with nothing but checkpoints queued: if it raises a signal,
    whether it returns or throws, no subscriber is called while it runs,
    and the next microtasks deliver exactly one notification, with the
    value it left. *)
Theorem detached_update_delivered_once (rev : revision) {R : Type}
    (c : prog R) (st : state) :
  let st1 := snd (run (api_of rev) c st) in
  dirty st = false ->
  Forall (eq Checkpoint) (microtasks st) ->
  reports st < reports st1 ->
  delivered (s st1) = delivered (s st) /\
  forall n, delivered (s (drain (api_of rev) (S n) st1)) =
            delivered (s st) ++ [observe (heap st1) (value st1)].
Proof.
  intros st1 Hclean Hq Hsig.
  assert (H : signals_only st st1) by (apply run_signals; apply _).
  assert (Hd : dirty st1 = true) by (eapply signals_only_pending; eauto).
  split; [rewrite (sig_s _ _ H); reflexivity|].
  intros n. rewrite drain_checkpoints_pending.
  - rewrite flush_delivered, Hd, (sig_s _ _ H). reflexivity.
  - rewrite (sig_tasks _ _ H), Hclean, Hd. apply Forall_app.
    split; [exact Hq|]. constructor; [reflexivity|constructor].
  - rewrite (sig_tasks _ _ H), Hclean, Hd.
    intros Hnil. apply app_eq_nil in Hnil. destruct Hnil as [_ Hnil].
    discriminate Hnil.
Qed.

(** The handle of the test "callback updates are flushed". *)
Lemma detached_update_delivered_once_witness :
  let st := Sample.init [] (VNum 0) in
  let st1 := snd (run Sample.api handle st) in
  delivered (s st1) = [] /\
  forall n, delivered (s (drain Sample.api (S n) st1)) = [(VNum 1, None)].
Proof.
  intros st st1.
  assert (Hsig : reports st < reports st1) by (vm_compute; lia).
  exact (detached_update_delivered_once sample_ts handle st
           eq_refl (List.Forall_nil _) Hsig).
Defined.

(** ** One notification per call in [src/sample.ts], and its exception *)

(** A property read through the view of [{count: 0}] by an action that
    changes nothing: the subscribers are called once all the same. *)
Lemma sample_one_notification_witness :
  let st := Sample.init [count_is 0] (VObj 0) in
  let st2 := snd (Sample.bound (peek "count") [] st) in
  delivered (s st2) = [(VObj 0, Some (count_is 0))] /\ dirty st2 = false.
Proof.
  intros st st2.
  assert (Hsig : reports st <
                 reports (snd (call Sample.api (peek "count") [] st)))
    by (vm_compute; lia).
  exact (sample_one_notification
           (fun _ => ReadValue (fun view =>
                     GetProp view "count" (fun _ => Ret VUndef)))
           [] st _ VUndef eq_refl Hsig I).
Defined.

(** In [src/sample.ts], when a synchronous action returns the tracked view
    of an object that has no truthy [finally] property, the wrapper's read
    of [res.finally] goes through the [get] handler after the forced flush:
    the caller gets the view, one notification has been delivered, and the
    token is pending again, so that the next flush delivers a second
    notification for the same call. *)
Theorem sample_returned_view_resignals (body : list val -> prog val)
    (args : list val) (st st1 : state) (t : val) (l : loc) :
  call Sample.api (SyncFn body) args st = (Returned (VProxy t), st1) ->
  value st1 = VObj l ->
  truthy (field (heap st1) l "finally") = false ->
  reports st < reports st1 ->
  let res := Sample.bound (SyncFn body) args st in
  fst res = Returned (VProxy t) /\
  delivered (s (snd res)) =
    delivered (s st) ++ [observe (heap st1) (VObj l)] /\
  dirty (snd res) = true /\
  delivered (s (flush (snd res))) =
    delivered (s st) ++
      [observe (heap st1) (VObj l); observe (heap st1) (VObj l)].
Proof.
  intros Hcall Hv Hf Hsig res. subst res.
  pose proof (call_sync_signals sample_ts body args st) as H.
  simpl api_of in H. rewrite Hcall in H. simpl in H.
  assert (Hd : dirty st1 = true) by (eapply signals_only_pending; eauto).
  assert (E : Sample.bound (SyncFn body) args st =
              (Returned (VProxy t), invalidate (flush st1))).
  { unfold Sample.bound. rewrite Hcall. unfold Sample.chain. simpl.
    unfold Sample.proxy_get.
    rewrite invalidate_value, flush_value, Hv, invalidate_heap, flush_heap.
    simpl. rewrite Hf. reflexivity. }
  rewrite E. simpl.
  assert (D1 : delivered (s (invalidate (flush st1))) =
               delivered (s st) ++ [observe (heap st1) (VObj l)]).
  { rewrite (sig_s _ _ (invalidate_signals_only _)), flush_delivered, Hd,
      (sig_s _ _ H), Hv. reflexivity. }
  split; [reflexivity|]. split; [exact D1|].
  split; [apply invalidate_dirty|].
  rewrite flush_delivered, invalidate_dirty, D1, invalidate_heap,
    invalidate_value, flush_heap, flush_value, Hv, <- app_assoc.
  reflexivity.
Qed.

(** [bump] increments [count] through the view and returns the view. *)
Lemma sample_returned_view_resignals_witness :
  let st := Sample.init [count_is 0] (VObj 0) in
  let res := Sample.bound returns_view [] st in
  fst res = Returned (VProxy (VObj 0)) /\
  delivered (s (snd res)) = [(VObj 0, Some (count_is 1))] /\
  dirty (snd res) = true /\
  delivered (s (flush (snd res))) =
    [(VObj 0, Some (count_is 1)); (VObj 0, Some (count_is 1))].
Proof.
  intros st res.
  assert (Hsig : reports st < reports (snd (call Sample.api returns_view [] st)))
    by (vm_compute; lia).
  exact (sample_returned_view_resignals
           (fun _ => ReadValue (fun view =>
                     GetProp view "count" (fun c =>
                     SetProp view "count" (plus_one c) (
                     ReadValue (fun view' => Ret view')))))
           [] st _ (VObj 0) 0 eq_refl eq_refl eq_refl Hsig).
Defined.

(** ** Async actions *)

(** In both revisions, when the body of an async action throws before its
    first [await], the bound action does not throw: the action's promise is
    rejected with the error, the forced flush runs, so that the token is
    clean and what the body reported before the throw is delivered before
    the call returns, and the caller gets a promise: the action's own in
    [part_001], the one derived from it, with its reaction queued with the
    same error, in [src/sample.ts]. *)
Theorem async_throw_becomes_rejection (rev : revision)
    (body : list val -> prog astep) (args : list val) (st st1 : state)
    (e : val) :
  run (api_of rev) (body args) (snd (new_promise st)) = (Threw e, st1) ->
  let p := length (promises st) in
  let res := bound_of rev (AsyncFn body) args st in
  fst res =
    Returned (VPromise (match rev with sample_ts => S p | part_001 => p end)) /\
  promises (snd res) !! p = Some (Settled (Rejected e)) /\
  dirty (snd res) = false /\
  delivered (s (snd res)) =
    delivered (s st) ++
      (if dirty st1 then [observe (heap st1) (value st1)] else []) /\
  (rev = sample_ts -> In (Finally (S p) (Rejected e)) (microtasks (snd res))).
Proof.
  intros Hrun p res. subst res.
  pose proof (run_signals (api_of rev) (body args) (snd (new_promise st))) as H.
  rewrite Hrun in H. simpl in H.
  assert (Hps : promises st1 = promises st ++ [Pending []])
    by (rewrite (sig_promises _ _ H); reflexivity).
  assert (Hs : s st1 = s st) by (rewrite (sig_s _ _ H); reflexivity).
  assert (Hp : promises st1 !! p = Some (Pending []))
    by (rewrite Hps; apply lookup_fresh_promise).
  assert (Hlen : length (promises st1) = S p)
    by (rewrite Hps, length_app; simpl; unfold p; lia).
  set (st2 := settle p (Rejected e) st1).
  assert (Hcall : call (api_of rev) (AsyncFn body) args st =
                  (Returned (VPromise p), st2)).
  { simpl. simpl in Hrun. rewrite Hrun. reflexivity. }
  assert (E2 : st2 = with_microtasks (microtasks st1 ++ [])
                       (with_promises
                          (<[p := Settled (Rejected e)]> (promises st1)) st1)).
  { unfold st2, settle. rewrite Hp. reflexivity. }
  assert (Hp2 : promises st2 !! p = Some (Settled (Rejected e))).
  { rewrite E2. simpl. apply list_lookup_insert_eq. lia. }
  assert (Hlen2 : length (promises st2) = S p).
  { rewrite E2. simpl. rewrite length_insert. exact Hlen. }
  assert (Hdel : delivered (s (flush st2)) =
                 delivered (s st) ++
                   (if dirty st1 then [observe (heap st1) (value st1)]
                    else [])).
  { rewrite flush_delivered, E2. simpl. rewrite Hs. reflexivity. }
  destruct rev; simpl bound_of; unfold Sample.bound, Part001.bound;
    simpl api_of in Hcall; rewrite Hcall.
  - unfold Sample.chain. simpl truthy. cbv iota.
    unfold promise_finally. simpl.
    rewrite flush_promises, Hp2, Hlen2. simpl.
    rewrite flush_dirty. repeat split.
    + rewrite lookup_app_l by (rewrite Hlen2; lia). exact Hp2.
    + exact Hdel.
    + intros _. apply in_or_app. right. left. reflexivity.
  - simpl. rewrite flush_promises, flush_dirty. repeat split; auto.
    intros Hc. discriminate Hc.
Qed.

(** An async action that increments the value and throws: the caller of
    [src/sample.ts] gets the promise [1], the promise [0] of the action is
    rejected with the error, and the value [1] has been delivered. *)
Lemma async_throw_becomes_rejection_witness :
  let res := Sample.bound async_fail [] (Sample.init [] (VNum 0)) in
  fst res = Returned (VPromise 1) /\
  promises (snd res) !! 0 = Some (Settled (Rejected (VStr "boom"))) /\
  dirty (snd res) = false /\
  delivered (s (snd res)) = [(VNum 1, None)] /\
  In (Finally 1 (Rejected (VStr "boom"))) (microtasks (snd res)).
Proof.
  intros res.
  pose proof (async_throw_becomes_rejection sample_ts
                (fun _ => increment (Throw (VStr "boom"))) []
                (Sample.init [] (VNum 0)) _ (VStr "boom") eq_refl) as H.
  vm_compute in H. destruct H as (A & B & C & D & F).
  vm_compute. repeat split; auto.
Defined.

Lemma settle_tasks p o st :
  exists rest, microtasks (settle p o st) = microtasks st ++ rest /\
               Forall (fun t => is_checkpoint t = false) rest.
Proof.
  unfold settle. destruct (promises st !! p) as [[ds|o']|]; simpl.
  - exists (map (fun p' => Finally p' o) ds). split; [reflexivity|].
    induction ds as [|d ds IH]; simpl; constructor; auto.
  - exists []. split; [symmetry; apply app_nil_r | constructor].
  - exists []. split; [symmetry; apply app_nil_r | constructor].
Qed.

Lemma finish_tasks p r st :
  exists rest, microtasks (finish p (r, st)) = microtasks st ++ rest /\
               Forall (fun t => is_checkpoint t = false) rest.
Proof.
  destruct r as [[v|k]|e]; simpl; try apply settle_tasks.
  exists [Resume p k]. split; [reflexivity|].
  constructor; [reflexivity | constructor].
Qed.

(** In both revisions, when an async action is resumed with the token clean
    and the segment it runs raises a signal, no subscriber is called during
    the segment, and the checkpoint of that signal is queued ahead of
    everything the end of the segment queues: the continuation after the
    next [await], or the reactions to the settlement of the action's
    promise.  The update of a segment is thus delivered before the action
    goes on and before anyone waiting for it is resumed. *)
Theorem segment_checkpoint_queued_first (rev : revision) (p : pid)
    (k : prog astep) (st : state) :
  let st' := run_task (api_of rev) (Resume p k) st in
  dirty st = false ->
  reports st < reports st' ->
  s st' = s st /\ dirty st' = true /\
  exists rest,
    microtasks st' = microtasks st ++ Checkpoint :: rest /\
    Forall (fun t => is_checkpoint t = false) rest.
Proof.
  intros st' Hclean Hsig. subst st'. simpl in *.
  pose proof (run_signals (api_of rev) k st) as H.
  destruct (run (api_of rev) k st) as [r st1]. simpl in H.
  destruct (finish_frame p r st1) as (_ & _ & Hd & Hs & Hr).
  destruct (finish_tasks p r st1) as (rest & Hq & Hrest).
  rewrite Hr in Hsig.
  assert (Hd1 : dirty st1 = true) by (eapply signals_only_pending; eauto).
  split; [rewrite Hs; apply (sig_s _ _ H)|].
  split; [rewrite Hd; exact Hd1|].
  exists rest. split; [|exact Hrest].
  rewrite Hq, (sig_tasks _ _ H), Hclean, Hd1, <- app_assoc. reflexivity.
Qed.

(** The action of the test "sync update is flushed", resumed after its
    [await]: the checkpoint of its second increment is queued ahead of the
    reaction to its settlement. *)
Lemma segment_checkpoint_queued_first_witness :
  let st := after sample_ts [Invoke async_next2 []; Microtask]
              (Sample.init [] (VNum 0)) in
  let st' := run_task Sample.api
               (Resume 0 (increment (Ret (ADone VUndef))))
               (with_microtasks [] st) in
  delivered (s st') = [(VNum 1, None)] /\ dirty st' = true /\
  microtasks st' = [Checkpoint; Finally 1 (Fulfilled VUndef)].
Proof.
  intros st st'.
  assert (Hsig : reports (with_microtasks [] st) < reports st')
    by (vm_compute; lia).
  pose proof (segment_checkpoint_queued_first sample_ts 0
                (increment (Ret (ADone VUndef))) (with_microtasks [] st)
                eq_refl Hsig) as (Hs & Hd & _).
  split; [|split; [exact Hd|]].
  - change (delivered (s st') = [(VNum 1, None)]) in |- *.
    transitivity (delivered (s (with_microtasks [] st))).
    + exact (f_equal delivered Hs).
    + vm_compute. reflexivity.
  - vm_compute. reflexivity.
Defined.

(** ** Edge behaviour of the tracked view of [src/sample.ts] *)

(** Assigning the tracked view to the accessor, [store.value = store.value],
    makes the variable [value] hold the proxy itself.  The handlers read
    [value[p]], so from then on, as long as the value is the proxy, every
    read and every write through the view re-enters the handler until the
    host gives up: it throws [RangeError] and no object is written. *)
Theorem sample_self_assignment_breaks_view (st : state) (t : val) :
  Sample.get_value st = VProxy t ->
  let st1 := Sample.set_value (Sample.get_value st) st in
  value st1 = VProxy t /\
  Sample.get_value st1 = VProxy t /\
  forall (st' : state) (p : string) (v : val),
    value st' = VProxy t ->
    fst (js_get Sample.api (Sample.get_value st1) p st') = Threw RangeError /\
    fst (js_set Sample.api (Sample.get_value st1) p v st') = Threw RangeError /\
    heap (snd (js_set Sample.api (Sample.get_value st1) p v st')) = heap st'.
Proof.
  intros Hview st1.
  assert (Hv1 : value st1 = VProxy t).
  { unfold st1, Sample.set_value. rewrite Hview. simpl. reflexivity. }
  assert (Hg1 : Sample.get_value st1 = VProxy t).
  { unfold st1. rewrite Hview, sample_setter_keeps_primitive_view;
      [exact Hview | reflexivity]. }
  split; [exact Hv1|]. split; [exact Hg1|].
  intros st' p v Hv. rewrite Hg1. simpl.
  unfold Sample.proxy_get, Sample.proxy_set.
  rewrite invalidate_value, Hv. simpl.
  split; [reflexivity|]. split; [reflexivity | apply invalidate_heap].
Qed.

(** The view of [{count: 0}] after [store.value = store.value]. *)
Lemma sample_self_assignment_breaks_view_witness :
  let st := Sample.init [count_is 0] (VObj 0) in
  let st1 := Sample.set_value (Sample.get_value st) st in
  value st1 = VProxy (VObj 0) /\
  fst (Sample.bound add [] st1) = Threw RangeError /\
  heap (snd (Sample.bound add [] st1)) = [count_is 0].
Proof.
  intros st st1.
  destruct (sample_self_assignment_breaks_view st (VObj 0) eq_refl)
    as (Hv & _ & _).
  split; [exact Hv|]. split; reflexivity.
Defined.

(** The [set] handler returns the value written.  In strict code, such as
    a module, a handler that returns a falsy value makes the assignment
    throw, so an action [store.value[p] = v] on an object value, called
    through the wrapper, writes the property in both cases, returns with
    the update flushed when [v] is truthy, and throws [TypeError] with the
    update left to the checkpoint when [v] is falsy ([false], [0], [""],
    [null], [undefined]). *)
Theorem sample_falsy_write_throws (st : state) (t : val) (l : loc)
    (p : string) (v : val) :
  Sample.get_value st = VProxy t ->
  value st = VObj l ->
  let st' := with_heap (write_field l p v (heap st)) (invalidate st) in
  snd (Sample.proxy_set t p v st) = st' /\
  fst (Sample.proxy_set t p v st) = Returned v /\
  Sample.bound (put p v) [] st =
    if truthy v then (Returned VUndef, flush st') else (Threw TypeError, st').
Proof.
  intros Hview Hv st'.
  assert (E : Sample.proxy_set t p v st = (Returned v, st')).
  { unfold Sample.proxy_set. rewrite invalidate_value, Hv. simpl.
    rewrite invalidate_heap. reflexivity. }
  rewrite E. split; [reflexivity|]. split; [reflexivity|].
  unfold Sample.bound, put. simpl.
  rewrite Hview. simpl. rewrite E.
  destruct (truthy v); reflexivity.
Qed.

(** [value.loading = false] on [{loading: true}]: the property is written,
    the caller gets [TypeError], nothing has been delivered and the token
    is pending. *)
Lemma sample_falsy_write_throws_witness :
  let st := Sample.init [{["loading" := VBool true]}] (VObj 0) in
  let res := Sample.bound (put "loading" (VBool false)) [] st in
  fst res = Threw TypeError /\
  heap (snd res) = [{["loading" := VBool false]}] /\
  delivered (s (snd res)) = [] /\ dirty (snd res) = true.
Proof.
  intros st res.
  destruct (sample_falsy_write_throws st (VObj 0) 0 "loading" (VBool false)
              eq_refl eq_refl) as (_ & _ & E).
  subst res. rewrite E. vm_compute. repeat split.
Defined.

(** ** The counter of [src/sample.ts] *)

Lemma sample_chain_number n st : Sample.chain (VNum n) st = (Returned (VNum n), st).
Proof.
  unfold Sample.chain. simpl. destruct (negb (n =? 0)%Z); reflexivity.
Qed.

(** What a bound action [() => (store.value = f(store.value), r)] does on a
    primitive value, in both revisions. *)
Lemma bound_assign_number rev (g : val -> val) (n m : Z) (r : Z) st :
  get_value (api_of rev) st = VNum n ->
  g (VNum n) = VNum m ->
  let res := bound_of rev
               (SyncFn (fun _ => ReadValue (fun v =>
                          WriteValue (g v) (Ret (VNum r))))) [] st in
  fst res = Returned (VNum r) /\
  value (snd res) = VNum m /\
  get_value (api_of rev) (snd res) = VNum m /\
  dirty (snd res) = false /\
  delivered (s (snd res)) = delivered (s st) ++ [(VNum m, None)].
Proof.
  intros Hg Hm res. subst res.
  destruct rev; simpl in *; unfold Sample.bound, Part001.bound; simpl;
    rewrite Hg, Hm.
  - rewrite sample_chain_number. simpl.
    unfold Sample.set_value. simpl.
    rewrite flush_value, flush_dirty, flush_delivered. simpl.
    rewrite invalidate_dirty, invalidate_heap,
      (sig_s _ _ (invalidate_signals_only st)).
    unfold Sample.get_value, flush. simpl. rewrite invalidate_dirty. simpl.
    repeat split.
  - unfold Part001.set_value, Part001.makeStateProxy, Part001.get_value. simpl.
    rewrite flush_value, flush_dirty, flush_delivered. simpl.
    rewrite invalidate_dirty, invalidate_heap,
      (sig_s _ _ (invalidate_signals_only st)).
    repeat split.
Qed.

(** The counter of [src/sample.ts], lines 3-7, on a count [n] on which the
    host's arithmetic is exact, in both revisions: [up()] returns the old
    count and delivers [n + 1]; [down()] after it returns [n + 1] and
    delivers [n], so that the count is back where it was; each call
    delivers one notification. *)
Theorem counter_up_then_down (rev : revision) (st : state) (n : Z) :
  safe_integer n ->
  get_value (api_of rev) st = VNum n ->
  let r1 := bound_of rev up [] st in
  let r2 := bound_of rev down [] (snd r1) in
  fst r1 = Returned (VNum n) /\
  value (snd r1) = VNum (n + 1) /\
  delivered (s (snd r1)) = delivered (s st) ++ [(VNum (n + 1), None)] /\
  fst r2 = Returned (VNum (n + 1)) /\
  value (snd r2) = VNum n /\
  get_value (api_of rev) (snd r2) = VNum n /\
  delivered (s (snd r2)) =
    delivered (s st) ++ [(VNum (n + 1), None); (VNum n, None)].
Proof.
  intros _ Hg r1 r2.
  assert (U : forall st0 k,
    get_value (api_of rev) st0 = VNum k ->
    bound_of rev up [] st0 =
    bound_of rev (SyncFn (fun _ => ReadValue (fun v =>
                    WriteValue (plus_one v) (Ret (VNum k))))) [] st0).
  { intros st0 k Hk. destruct rev; simpl in *;
      unfold Sample.bound, Part001.bound; simpl; rewrite Hk; reflexivity. }
  assert (D : forall st0 k,
    get_value (api_of rev) st0 = VNum k ->
    bound_of rev down [] st0 =
    bound_of rev (SyncFn (fun _ => ReadValue (fun v =>
                    WriteValue (minus_one v) (Ret (VNum k))))) [] st0).
  { intros st0 k Hk. destruct rev; simpl in *;
      unfold Sample.bound, Part001.bound; simpl; rewrite Hk; reflexivity. }
  destruct (bound_assign_number rev plus_one n (n + 1) n st Hg eq_refl)
    as (A1 & A2 & A3 & A4 & A5).
  rewrite <- (U st n Hg) in A1, A2, A3, A4, A5. fold r1 in A1, A2, A3, A4, A5.
  assert (Hm : minus_one (VNum (n + 1)) = VNum n)
    by (simpl; f_equal; lia).
  destruct (bound_assign_number rev minus_one (n + 1) n (n + 1) (snd r1)
              A3 Hm) as (B1 & B2 & B3 & B4 & B5).
  rewrite <- (D (snd r1) (n + 1)%Z A3) in B1, B2, B3, B4, B5.
  fold r2 in B1, B2, B3, B4, B5.
  repeat split; auto.
  rewrite B5, A5, <- app_assoc. reflexivity.
Qed.

(** The counter built on [0], as in the source: [up()] then [down()]. *)
Lemma counter_up_then_down_witness :
  let st := Sample.init [] (VNum 0) in
  let r1 := Sample.bound up [] st in
  let r2 := Sample.bound down [] (snd r1) in
  fst r1 = Returned (VNum 0) /\
  fst r2 = Returned (VNum 1) /\
  value (snd r2) = VNum 0 /\
  delivered (s (snd r2)) = [(VNum 1, None); (VNum 0, None)].
Proof.
  intros st r1 r2.
  assert (Hsafe : safe_integer 0) by (unfold safe_integer; lia).
  destruct (counter_up_then_down sample_ts st 0 Hsafe eq_refl)
    as (A & _ & _ & B & C & _ & D).
  split; [exact A|]. split; [exact B|]. split; [exact C | exact D].
Defined.

(** [reset()] of the counter, in both revisions and whatever the value is:
    it returns [0], the value is [0], the accessor hands out [0], and one
    notification with [0] is delivered. *)
Theorem counter_reset (rev : revision) (st : state) :
  let res := bound_of rev reset [] st in
  fst res = Returned (VNum 0) /\
  value (snd res) = VNum 0 /\
  get_value (api_of rev) (snd res) = VNum 0 /\
  delivered (s (snd res)) = delivered (s st) ++ [(VNum 0, None)].
Proof.
  intros res. subst res.
  destruct rev; simpl; unfold Sample.bound, Part001.bound; simpl.
  - unfold Sample.set_value. simpl.
    rewrite flush_value, flush_delivered. simpl.
    rewrite invalidate_dirty, invalidate_heap,
      (sig_s _ _ (invalidate_signals_only st)).
    unfold Sample.get_value, flush. simpl. rewrite invalidate_dirty. simpl.
    repeat split.
  - unfold Part001.set_value, Part001.makeStateProxy, Part001.get_value. simpl.
    rewrite flush_value, flush_delivered. simpl.
    rewrite invalidate_dirty, invalidate_heap,
      (sig_s _ _ (invalidate_signals_only st)).
    repeat split.
Qed.

(** In both revisions a bound async action never throws and never leaves
    an update pending: whatever its first segment does, the caller gets a
    promise, the token is clean when the call returns, and what the first
    segment reported has been delivered in one notification, with the value
    as it was when the segment stopped. *)
Theorem async_first_segment_flushed (rev : revision)
    (body : list val -> prog astep) (args : list val) (st : state) :
  let st1 := snd (call (api_of rev) (AsyncFn body) args st) in
  let res := bound_of rev (AsyncFn body) args st in
  (exists q, fst res = Returned (VPromise q)) /\
  dirty (snd res) = false /\
  delivered (s (snd res)) =
    delivered (s st) ++
      (if dirty st1 then [observe (heap st1) (value st1)] else []).
Proof.
  intros st1 res. subst st1 res.
  destruct (call_async_own_promise (api_of rev) body args st)
    as (Hr & Hs & _).
  destruct rev; simpl bound_of; simpl api_of in *;
    unfold Sample.bound, Part001.bound.
  - destruct (call Sample.api (AsyncFn body) args st) as [r st1].
    simpl in Hr, Hs. subst r. simpl snd.
    destruct (sample_chain_store (VPromise (length (promises st)))
                (flush st1) I) as [Hcs Hcd].
    split; [|split].
    + unfold Sample.chain. simpl truthy. cbv iota.
      destruct (promise_finally (length (promises st)) (flush st1)).
      simpl. eauto.
    + rewrite Hcd. apply flush_dirty.
    + rewrite Hcs, flush_delivered, Hs. reflexivity.
  - destruct (call Part001.api (AsyncFn body) args st) as [r st1].
    simpl in Hr, Hs. subst r. simpl.
    split; [eauto|]. split; [apply flush_dirty|].
    rewrite flush_delivered, Hs. reflexivity.
Qed.

(** An action that returns the object [{finally: 1}]: [part_001] hands it
    to the caller, [src/sample.ts] calls its [finally] property, which is
    not a function, and the bound action throws [TypeError]. *)
Example finally_property_is_called :
  fst (Part001.bound returns_finally_1 [] (Part001.init [] (VNum 0))) =
    Returned (VObj 0) /\
  fst (Sample.bound returns_finally_1 [] (Sample.init [] (VNum 0))) =
    Threw TypeError.
Proof. split; vm_compute; reflexivity. Qed.
